(** * Call signaling: presence registry, relay, call store and VideoCall

    A shallow embedding of the call-signaling code of the chat application:

    - [Relay]     the Socket.IO server (backend [lib/socket.js]): the
                  [userSocketMap] presence registry and the five relay
                  handlers;
    - [Store]     the call part of the zustand store
                  ([frontend/src/store/useAuthStore.js]);
    - [VideoCall] the handlers and effects of the [VideoCall] component
                  ([frontend/src/components/VideoCall.jsx]) and the render
                  condition of [HomePage].

    JavaScript strings are [string]; a value that may be [undefined] or
    [null] is an [option]; objects used as dictionaries are [gmap]s. *)

From stdpp Require Import gmap strings list fin_maps pretty.
From Stdlib Require Import Bool Arith NArith Lia.

Open Scope string_scope.
Open Scope list_scope.

(** ** JavaScript truthiness of the values the code tests *)

(** [if (s)] on a string: every string but the empty one is truthy. *)
Definition truthy (s : string) : bool := negb (String.eqb s "").

(** [if (v)] on a value that is a string or [undefined]. *)
Definition truthy_opt (v : option string) : bool :=
  match v with
  | Some s => truthy s
  | None => false
  end.

(** A property key: [obj[undefined]] addresses the key ["undefined"]. *)
Definition key_of (v : option string) : string :=
  match v with
  | Some s => s
  | None => "undefined"
  end.

(** ** The server: presence registry and relay *)

Module Relay.

(** A connected socket as the handlers see it: [socket.id] and
    [socket.handshake.query.userId]. *)
Record Socket := {
  id : string;
  userId : option string;
}.

(** Messages a client emits to the server. *)
Inductive ClientMsg :=
| callUser (userToCall signalData from name : string)
| answerCall (to signal : string)
| iceCandidate (to candidate : string)
| endCall (to : string)
| rejectCall (to : string).

(** Messages the server emits. *)
Inductive ServerMsg :=
| getOnlineUsers (users : gset string)
| callUserFwd (signal from name : string)
| callAccepted (signal : string)
| iceCandidateFwd (candidate : string)
| callEnded
| callRejected
| callFailed (reason : string).

(** Where an emission goes: [io.emit] reaches every socket,
    [io.to(sid).emit] and [socket.emit] reach the socket [sid]. *)
Inductive Dest :=
| ToAll
| To (sid : string).

Definition Out : Type := Dest * ServerMsg.

(** [userSocketMap]: userId -> socketId.  Identities are database ids, so
    only own properties of the object are modelled. *)
Abbreviation Registry := (gmap string string).


(** [Object.keys(userSocketMap)], as a set. *)
Definition onlineUsers (m : Registry) : Out :=
  (ToAll, getOnlineUsers (dom m)).

(** [io.on("connection")]: the registration and the broadcast. *)
Definition on_connection (m : Registry) (s : Socket) : Registry * list Out :=
  let m' := if truthy_opt (userId s)
            then <[key_of (userId s) := id s]> m
            else m in
  (m', [onlineUsers m']).

(** [socket.on("disconnect")] *)
Definition on_disconnect (m : Registry) (s : Socket) : Registry * list Out :=
  let m' := delete (key_of (userId s)) m in
  (m', [onlineUsers m']).

(** The five relay handlers; none of them changes the registry. *)
Definition on_message (m : Registry) (s : Socket) (msg : ClientMsg) : list Out :=
  match msg with
  | callUser userToCall signalData from name =>
      match m !! userToCall with
      | Some socketId =>
          if truthy socketId
          then [(To socketId, callUserFwd signalData from name)]
          else [(To (id s), callFailed "User is offline")]
      | None => [(To (id s), callFailed "User is offline")]
      end
  | answerCall to signal =>
      match m !! to with
      | Some socketId =>
          if truthy socketId then [(To socketId, callAccepted signal)] else []
      | None => []
      end
  | iceCandidate to candidate =>
      match m !! to with
      | Some socketId =>
          if truthy socketId then [(To socketId, iceCandidateFwd candidate)] else []
      | None => []
      end
  | endCall to =>
      match m !! to with
      | Some socketId =>
          if truthy socketId then [(To socketId, callEnded)] else []
      | None => []
      end
  | rejectCall to =>
      match m !! to with
      | Some socketId =>
          if truthy socketId then [(To socketId, callRejected)] else []
      | None => []
      end
  end.

(** What happens at the server, one event at a time. *)
Inductive Event :=
| Connection (s : Socket)
| Message (s : Socket) (msg : ClientMsg)
| Disconnect (s : Socket).

Definition step (m : Registry) (e : Event) : Registry * list Out :=
  match e with
  | Connection s => on_connection m s
  | Message s msg => (m, on_message m s msg)
  | Disconnect s => on_disconnect m s
  end.


(** The message kinds other than the call invite. *)
Definition is_invite (msg : ClientMsg) : bool :=
  match msg with
  | callUser _ _ _ _ => true
  | _ => false
  end.

Definition target (msg : ClientMsg) : string :=
  match msg with
  | callUser userToCall _ _ _ => userToCall
  | answerCall to _ => to
  | iceCandidate to _ => to
  | endCall to => to
  | rejectCall to => to
  end.





End Relay.

(** ** Timers

    What a pending [setTimeout] or [setInterval] will run. *)
Inductive Callback :=
| AnswerTimeout      (* useAuthStore.callUser: the check after 15 s *)
| MediaRetry         (* handleMediaError: retry with lower quality *)
| ReconnectResume    (* handleReconnection: the code after the awaited wait *)
| StatsTick.         (* monitorNetworkQuality, every STATS_INTERVAL *)

(** ** The client store (useAuthStore.js), call part *)

Module Store.

Record User := {
  _id : string;
  fullName : string;
}.

(** The socket.io client socket; [connected] is its live flag. *)
Record ClientSocket := {
  connected : bool;
}.

(** [caller]: the empty object has neither field. *)
Record Caller := {
  from : option string;
  name : option string;
}.

Definition no_caller : Caller := {| from := None; name := None |}.

(** The fields of the store that the call actions read or write. *)
Record State := {
  authUser : option User;
  socket : option ClientSocket;
  callAccepted : bool;
  callEnded : bool;
  caller : Caller;
  receivingCall : bool;
  callSignal : option string;
}.

(** The store as [create] builds it, with the given user and socket. *)
Definition initial (u : option User) (sk : option ClientSocket) : State :=
  {| authUser := u; socket := sk;
     callAccepted := false; callEnded := false; caller := no_caller;
     receivingCall := false; callSignal := None |}.

(** What an action does besides [set]. *)
Inductive Effect :=
| Emit (msg : Relay.ClientMsg)           (* socket.emit *)
| ToastError (text : string)             (* toast.error *)
| SetTimeout (cb : Callback) (ms : N).   (* setTimeout, handle discarded *)

(** The [set] of [endCall], [callEnded] and [callRejected]. *)
Definition set_ended (st : State) : State :=
  {| authUser := authUser st; socket := socket st;
     callAccepted := false; callEnded := true; caller := no_caller;
     receivingCall := false; callSignal := None |}.

(** *** Listeners registered by [connectSocket] *)

Definition on_callUser (from name signal : string) (st : State) : State :=
  {| authUser := authUser st; socket := socket st;
     callAccepted := false; callEnded := false;
     caller := {| from := Some from; name := Some name |};
     receivingCall := true; callSignal := Some signal |}.

Definition on_callAccepted (signal : string) (st : State) : State :=
  {| authUser := authUser st; socket := socket st;
     callAccepted := true; callEnded := callEnded st; caller := caller st;
     receivingCall := receivingCall st; callSignal := Some signal |}.

Definition on_callEnded (st : State) : State * list Effect :=
  (set_ended st, []).

Definition on_callRejected (st : State) : State * list Effect :=
  (set_ended st, [ToastError "Call rejected by user"]).

(** A message of the server arrives.  [iceCandidate] has an empty
    listener here, [callFailed] has none, and the list of online users is
    not among the fields kept. *)
Definition deliver (msg : Relay.ServerMsg) (st : State) : State * list Effect :=
  match msg with
  | Relay.callUserFwd signal from name => (on_callUser from name signal st, [])
  | Relay.callAccepted signal => (on_callAccepted signal st, [])
  | Relay.callEnded => on_callEnded st
  | Relay.callRejected => on_callRejected st
  | Relay.iceCandidateFwd _ => (st, [])
  | Relay.callFailed _ => (st, [])
  | Relay.getOnlineUsers _ => (st, [])
  end.

(** *** Actions *)

Definition endCall (st : State) : State * list Effect :=
  (set_ended st,
   match socket st with
   | Some _ =>
       if truthy_opt (from (caller st))
       then [Emit (Relay.endCall (key_of (from (caller st))))]
       else []
   | None => []
   end).

(** The callback of the timeout that [callUser] arms. *)
Definition answer_timeout (st : State) : State * list Effect :=
  if negb (callAccepted st) && negb (callEnded st)
  then let '(st', effs) := endCall st in
       (st', ToastError "Call not answered" :: effs)
  else (st, []).

Definition callUser (userToCall signalData name : string) (st : State)
  : State * list Effect :=
  match socket st, authUser st with
  | Some _, Some u =>
      ({| authUser := authUser st; socket := socket st;
          callAccepted := callAccepted st; callEnded := callEnded st;
          caller := {| from := Some userToCall; name := Some name |};
          receivingCall := false; callSignal := Some signalData |},
       [Emit (Relay.callUser userToCall signalData (_id u) (fullName u));
        SetTimeout AnswerTimeout 15000%N])
  | _, _ => (st, [])
  end.

Definition answerCall (signal : string) (st : State) : State * list Effect :=
  match socket st with
  | Some _ =>
      if truthy_opt (from (caller st))
      then ({| authUser := authUser st; socket := socket st;
               callAccepted := true; callEnded := callEnded st;
               caller := caller st; receivingCall := receivingCall st;
               callSignal := callSignal st |},
            [Emit (Relay.answerCall (key_of (from (caller st))) signal)])
      else (st, [])
  | None => (st, [])
  end.

Definition sendIceCandidate (candidate : string) (to : option string) (st : State)
  : State * list Effect :=
  match socket st with
  | Some _ =>
      if truthy_opt to
      then (st, [Emit (Relay.iceCandidate (key_of to) candidate)])
      else (st, [])
  | None => (st, [])
  end.

Definition rejectCall (st : State) : State * list Effect :=
  match socket st with
  | Some _ =>
      if truthy_opt (from (caller st))
      then ({| authUser := authUser st; socket := socket st;
               callAccepted := callAccepted st; callEnded := callEnded st;
               caller := no_caller; receivingCall := false;
               callSignal := None |},
            [Emit (Relay.rejectCall (key_of (from (caller st))))])
      else (st, [])
  | None => (st, [])
  end.

Definition resetCallState (st : State) : State :=
  {| authUser := authUser st; socket := socket st;
     callAccepted := false; callEnded := false; caller := no_caller;
     receivingCall := false; callSignal := None |}.

(** The messages among the effects of an action, oldest first. *)
Fixpoint emitted (effs : list Effect) : list Relay.ClientMsg :=
  match effs with
  | [] => []
  | Emit msg :: rest => msg :: emitted rest
  | _ :: rest => emitted rest
  end.

(** The user-visible notices among the effects. *)
Fixpoint notices (effs : list Effect) : list string :=
  match effs with
  | [] => []
  | ToastError text :: rest => text :: notices rest
  | _ :: rest => notices rest
  end.

End Store.

(** ** The VideoCall component (VideoCall.jsx) and HomePage's condition

    Each handler and effect body is a function on [World]: the store, the
    component's state, the timer table of the tab, and the trace of what
    was asked of the browser, the peer connection and the socket.  What
    the browser answers (support, devices, the result of [getUserMedia])
    is the [Browser] argument of the step.  An awaited call and its
    continuation are one step, except the 2 s wait of
    [handleReconnection], which is a timer.  A handler is taken from the
    render that is current when it runs: the state it reads is the state
    it is applied to.  Effects and their cleanups are steps of their own;
    which of them run after a change of state is up to the sequence of
    events considered. *)

Module VideoCall.

(** *** Media *)

Inductive TrackKind := video | audio.

Definition kind_eqb (a b : TrackKind) : bool :=
  match a, b with
  | video, video | audio, audio => true
  | _, _ => false
  end.

(** A media track; [live] is false once [track.stop()] has run. *)
Record Track := {
  kind : TrackKind;
  live : bool;
}.

Abbreviation Stream := (list Track).

(** One entry of the constraints of [getUserMedia]: [false], [true], or
    the lower-quality object of the retry ([{width: 640, height: 480,
    frameRate: 15}] for video, [{echoCancellation: true,
    noiseSuppression: true}] for audio). *)
Inductive Constraint := Off | On | LowQuality.

Record Constraints := {
  c_video : Constraint;
  c_audio : Constraint;
}.

Definition default_constraints : Constraints := {| c_video := On; c_audio := On |}.

Definition lower_quality : Constraints :=
  {| c_video := LowQuality; c_audio := LowQuality |}.

(** [if (constraints.video)] *)
Definition wanted (c : Constraint) : bool :=
  match c with
  | Off => false
  | _ => true
  end.

(** A thrown error: its [name] and [message]. *)
Record Error := {
  err_name : string;
  err_message : string;
}.

(** What the browser answers during one call of
    [getMediaWithErrorHandling]; [checkMediaPermissions] (with its fallback
    to "available") is folded into the two availability flags. *)
Record Browser := {
  supported : bool;
  cameraAvailable : bool;
  microphoneAvailable : bool;
  getUserMedia : Constraints → Stream + Error;
}.

(** *** Component state *)

Inductive CallStatus := Idle | Connecting | Connected | Disconnected | Failed.

(** [pc.connectionState] and [pc.iceConnectionState] *)
Inductive ConnectionState :=
| cs_new | cs_connecting | cs_connected | cs_disconnected | cs_failed | cs_closed.

Inductive IceConnectionState :=
| ice_new | ice_checking | ice_connected | ice_completed
| ice_failed | ice_disconnected | ice_closed.

Record MediaError := {
  message : string;
  canRetry : bool;
}.

Record DeviceErrors := {
  camera : bool;
  microphone : bool;
}.

Definition no_device_errors : DeviceErrors := {| camera := false; microphone := false |}.

(** The [RTCPeerConnection] held in the state: whether [close()] has run
    and the description given to [setRemoteDescription]. *)
Record PeerConnection := {
  closed : bool;
  remoteDescription : option string;
}.

(** The state and refs of the component that the call logic reads or
    writes; the display-only ones ([micMuted], [cameraOff],
    [remoteStream], [isInitiator], [networkQuality], [callDuration]) are
    left out.  No statement of the component assigns
    [reconnectTimeoutRef.current]. *)
Record State := {
  localStream : option Stream;
  peerConnection : option PeerConnection;
  mediaError : option MediaError;
  connectionError : option string;
  socketError : option string;
  isLoadingMedia : bool;
  permissionDenied : bool;
  retryAttempts : nat;
  callStatus : CallStatus;
  isReconnecting : bool;
  deviceErrors : DeviceErrors;
  reconnectTimeoutRef : option nat;
  statsIntervalRef : option nat;
}.

Definition initial_view : State :=
  {| localStream := None; peerConnection := None; mediaError := None;
     connectionError := None; socketError := None; isLoadingMedia := false;
     permissionDenied := false; retryAttempts := 0; callStatus := Idle;
     isReconnecting := false; deviceErrors := no_device_errors;
     reconnectTimeoutRef := None; statsIntervalRef := None |}.

Definition MAX_RETRY_ATTEMPTS : nat := 3.
Definition STATS_INTERVAL : N := 1000.

(** Field updates ([setX(v)] of the component). *)

Definition set_localStream (v : option Stream) (cs : State) : State :=
  {| localStream := v; peerConnection := peerConnection cs;
     mediaError := mediaError cs; connectionError := connectionError cs;
     socketError := socketError cs; isLoadingMedia := isLoadingMedia cs;
     permissionDenied := permissionDenied cs;
     retryAttempts := retryAttempts cs; callStatus := callStatus cs;
     isReconnecting := isReconnecting cs; deviceErrors := deviceErrors cs;
     reconnectTimeoutRef := reconnectTimeoutRef cs;
     statsIntervalRef := statsIntervalRef cs |}.

Definition set_peerConnection (v : option PeerConnection) (cs : State) : State :=
  {| localStream := localStream cs; peerConnection := v;
     mediaError := mediaError cs; connectionError := connectionError cs;
     socketError := socketError cs; isLoadingMedia := isLoadingMedia cs;
     permissionDenied := permissionDenied cs;
     retryAttempts := retryAttempts cs; callStatus := callStatus cs;
     isReconnecting := isReconnecting cs; deviceErrors := deviceErrors cs;
     reconnectTimeoutRef := reconnectTimeoutRef cs;
     statsIntervalRef := statsIntervalRef cs |}.

Definition set_mediaError (v : option MediaError) (cs : State) : State :=
  {| localStream := localStream cs; peerConnection := peerConnection cs;
     mediaError := v; connectionError := connectionError cs;
     socketError := socketError cs; isLoadingMedia := isLoadingMedia cs;
     permissionDenied := permissionDenied cs;
     retryAttempts := retryAttempts cs; callStatus := callStatus cs;
     isReconnecting := isReconnecting cs; deviceErrors := deviceErrors cs;
     reconnectTimeoutRef := reconnectTimeoutRef cs;
     statsIntervalRef := statsIntervalRef cs |}.

Definition set_connectionError (v : option string) (cs : State) : State :=
  {| localStream := localStream cs; peerConnection := peerConnection cs;
     mediaError := mediaError cs; connectionError := v;
     socketError := socketError cs; isLoadingMedia := isLoadingMedia cs;
     permissionDenied := permissionDenied cs;
     retryAttempts := retryAttempts cs; callStatus := callStatus cs;
     isReconnecting := isReconnecting cs; deviceErrors := deviceErrors cs;
     reconnectTimeoutRef := reconnectTimeoutRef cs;
     statsIntervalRef := statsIntervalRef cs |}.

Definition set_socketError (v : option string) (cs : State) : State :=
  {| localStream := localStream cs; peerConnection := peerConnection cs;
     mediaError := mediaError cs; connectionError := connectionError cs;
     socketError := v; isLoadingMedia := isLoadingMedia cs;
     permissionDenied := permissionDenied cs;
     retryAttempts := retryAttempts cs; callStatus := callStatus cs;
     isReconnecting := isReconnecting cs; deviceErrors := deviceErrors cs;
     reconnectTimeoutRef := reconnectTimeoutRef cs;
     statsIntervalRef := statsIntervalRef cs |}.

Definition set_isLoadingMedia (v : bool) (cs : State) : State :=
  {| localStream := localStream cs; peerConnection := peerConnection cs;
     mediaError := mediaError cs; connectionError := connectionError cs;
     socketError := socketError cs; isLoadingMedia := v;
     permissionDenied := permissionDenied cs;
     retryAttempts := retryAttempts cs; callStatus := callStatus cs;
     isReconnecting := isReconnecting cs; deviceErrors := deviceErrors cs;
     reconnectTimeoutRef := reconnectTimeoutRef cs;
     statsIntervalRef := statsIntervalRef cs |}.

Definition set_permissionDenied (v : bool) (cs : State) : State :=
  {| localStream := localStream cs; peerConnection := peerConnection cs;
     mediaError := mediaError cs; connectionError := connectionError cs;
     socketError := socketError cs; isLoadingMedia := isLoadingMedia cs;
     permissionDenied := v; retryAttempts := retryAttempts cs;
     callStatus := callStatus cs; isReconnecting := isReconnecting cs;
     deviceErrors := deviceErrors cs;
     reconnectTimeoutRef := reconnectTimeoutRef cs;
     statsIntervalRef := statsIntervalRef cs |}.

Definition set_retryAttempts (v : nat) (cs : State) : State :=
  {| localStream := localStream cs; peerConnection := peerConnection cs;
     mediaError := mediaError cs; connectionError := connectionError cs;
     socketError := socketError cs; isLoadingMedia := isLoadingMedia cs;
     permissionDenied := permissionDenied cs; retryAttempts := v;
     callStatus := callStatus cs; isReconnecting := isReconnecting cs;
     deviceErrors := deviceErrors cs;
     reconnectTimeoutRef := reconnectTimeoutRef cs;
     statsIntervalRef := statsIntervalRef cs |}.

Definition set_callStatus (v : CallStatus) (cs : State) : State :=
  {| localStream := localStream cs; peerConnection := peerConnection cs;
     mediaError := mediaError cs; connectionError := connectionError cs;
     socketError := socketError cs; isLoadingMedia := isLoadingMedia cs;
     permissionDenied := permissionDenied cs;
     retryAttempts := retryAttempts cs; callStatus := v;
     isReconnecting := isReconnecting cs; deviceErrors := deviceErrors cs;
     reconnectTimeoutRef := reconnectTimeoutRef cs;
     statsIntervalRef := statsIntervalRef cs |}.

Definition set_isReconnecting (v : bool) (cs : State) : State :=
  {| localStream := localStream cs; peerConnection := peerConnection cs;
     mediaError := mediaError cs; connectionError := connectionError cs;
     socketError := socketError cs; isLoadingMedia := isLoadingMedia cs;
     permissionDenied := permissionDenied cs;
     retryAttempts := retryAttempts cs; callStatus := callStatus cs;
     isReconnecting := v; deviceErrors := deviceErrors cs;
     reconnectTimeoutRef := reconnectTimeoutRef cs;
     statsIntervalRef := statsIntervalRef cs |}.

Definition set_deviceErrors (v : DeviceErrors) (cs : State) : State :=
  {| localStream := localStream cs; peerConnection := peerConnection cs;
     mediaError := mediaError cs; connectionError := connectionError cs;
     socketError := socketError cs; isLoadingMedia := isLoadingMedia cs;
     permissionDenied := permissionDenied cs;
     retryAttempts := retryAttempts cs; callStatus := callStatus cs;
     isReconnecting := isReconnecting cs; deviceErrors := v;
     reconnectTimeoutRef := reconnectTimeoutRef cs;
     statsIntervalRef := statsIntervalRef cs |}.

Definition set_statsIntervalRef (v : option nat) (cs : State) : State :=
  {| localStream := localStream cs; peerConnection := peerConnection cs;
     mediaError := mediaError cs; connectionError := connectionError cs;
     socketError := socketError cs; isLoadingMedia := isLoadingMedia cs;
     permissionDenied := permissionDenied cs;
     retryAttempts := retryAttempts cs; callStatus := callStatus cs;
     isReconnecting := isReconnecting cs; deviceErrors := deviceErrors cs;
     reconnectTimeoutRef := reconnectTimeoutRef cs; statsIntervalRef := v |}.

(** *** The world of one browser tab *)

(** A pending timer or interval. *)
Record Timer := {
  handle : nat;
  callback : Callback;
  delay : N;
  repeats : bool;
}.

(** What the code asks of the socket, the user interface, the media
    devices and the peer connection. *)
Inductive Cmd :=
| Wire (msg : Relay.ClientMsg)            (* socket.emit *)
| Notice (text : string)                  (* toast.error *)
| GetUserMedia (c : Constraints)          (* navigator.mediaDevices.getUserMedia *)
| TrackStop (k : TrackKind)               (* track.stop() *)
| PcNew                                   (* new RTCPeerConnection, addTrack *)
| PcSetRemoteDescription (sdp : string)
| PcCreateAnswer                          (* createAnswer, setLocalDescription *)
| PcAddIceCandidate (candidate : string)
| PcClose.

Record World := {
  store : Store.State;
  view : State;
  timers : list Timer;
  next_handle : nat;
  trace : list Cmd;
}.

Definition set_store (v : Store.State) (w : World) : World :=
  {| store := v; view := view w; timers := timers w;
     next_handle := next_handle w; trace := trace w |}.

Definition set_view (v : State) (w : World) : World :=
  {| store := store w; view := v; timers := timers w;
     next_handle := next_handle w; trace := trace w |}.

Definition set_timers (v : list Timer) (w : World) : World :=
  {| store := store w; view := view w; timers := v;
     next_handle := next_handle w; trace := trace w |}.

Definition set_next_handle (v : nat) (w : World) : World :=
  {| store := store w; view := view w; timers := timers w; next_handle := v;
     trace := trace w |}.

Definition set_trace (v : list Cmd) (w : World) : World :=
  {| store := store w; view := view w; timers := timers w;
     next_handle := next_handle w; trace := v |}.

(** A tab in which nothing has happened yet; timer handles are positive. *)
Definition fresh (st : Store.State) : World :=
  {| store := st; view := initial_view; timers := []; next_handle := 1; trace := [] |}.

Definition upd_view (f : State → State) (w : World) : World :=
  set_view (f (view w)) w.

Definition log (cmds : list Cmd) (w : World) : World :=
  set_trace (trace w ++ cmds) w.

(** [setTimeout] and [setInterval]: the new entry gets the next handle. *)
Definition add_timer (cb : Callback) (ms : N) (rep : bool) (w : World) : World :=
  set_next_handle (S (next_handle w))
    (set_timers (timers w ++ [{| handle := next_handle w; callback := cb;
                                 delay := ms; repeats := rep |}]) w).

Definition setTimeout (cb : Callback) (ms : N) (w : World) : World :=
  add_timer cb ms false w.

Definition setInterval (cb : Callback) (ms : N) (w : World) : World :=
  add_timer cb ms true w.

(** [clearTimeout(h)] and [clearInterval(h)] *)
Definition clearTimer (h : nat) (w : World) : World :=
  set_timers (filter (fun t => handle t ≠ h) (timers w)) w.

(** [if (ref.current) clearTimeout(ref.current)] *)
Definition clear_ref (r : option nat) (w : World) : World :=
  match r with
  | Some (S h) => clearTimer (S h) w
  | _ => w
  end.

(** The effects of a store action, carried out in the tab. *)
Fixpoint perform (effs : list Store.Effect) (w : World) : World :=
  match effs with
  | [] => w
  | Store.Emit msg :: rest => perform rest (log [Wire msg] w)
  | Store.ToastError text :: rest => perform rest (log [Notice text] w)
  | Store.SetTimeout cb ms :: rest => perform rest (setTimeout cb ms w)
  end.

Definition store_action (f : Store.State → Store.State * list Store.Effect)
    (w : World) : World :=
  perform (snd (f (store w))) (set_store (fst (f (store w))) w).

(** The messages sent over the socket, oldest first. *)
Fixpoint wire (cmds : list Cmd) : list Relay.ClientMsg :=
  match cmds with
  | [] => []
  | Wire msg :: rest => msg :: wire rest
  | _ :: rest => wire rest
  end.

(** *** HomePage: when the component is rendered *)

Definition HomePage_shows_VideoCall (st : Store.State) : bool :=
  Store.receivingCall st || (Store.callAccepted st && negb (Store.callEnded st)).

(** *** Media access *)

(** [switch (error.name || error.message)] *)
Definition error_key (e : Error) : string :=
  if truthy (err_name e) then err_name e else err_message e.

Definition handleMediaError (e : Error) (w : World) : World :=
  let k := error_key e in
  if (k =? "NotAllowedError") || (k =? "PermissionDeniedError") then
    upd_view (set_mediaError (Some
      {| message := "Camera and microphone access denied. Please allow permissions in your browser settings and refresh the page.";
         canRetry := false |}))
      (upd_view (set_permissionDenied true) w)
  else if (k =? "NotFoundError") || (k =? "DevicesNotFoundError") then
    upd_view (set_mediaError (Some
      {| message := "No camera or microphone found. Please connect your devices and try again.";
         canRetry := true |})) w
  else if (k =? "NotReadableError") || (k =? "TrackStartError") then
    upd_view (set_mediaError (Some
      {| message := "Camera or microphone is already in use by another application. Please close other applications and try again.";
         canRetry := true |})) w
  else if (k =? "OverconstrainedError") || (k =? "ConstraintNotSatisfiedError") then
    if Nat.ltb (retryAttempts (view w)) MAX_RETRY_ATTEMPTS then
      upd_view (set_mediaError (Some
        {| message := "Camera/microphone constraints cannot be satisfied. Trying with lower quality...";
           canRetry := true |}))
        (setTimeout MediaRetry 1000 w)
    else
      upd_view (set_mediaError (Some
        {| message := "Failed to get media with available constraints after multiple attempts.";
           canRetry := false |})) w
  else if k =? "NotSupportedError" then
    upd_view (set_mediaError (Some
      {| message := "Media constraints are not supported by this browser. Please update your browser.";
         canRetry := false |})) w
  else if k =? "TypeError" then
    upd_view (set_mediaError (Some
      {| message := "Invalid media constraints. Please refresh the page and try again.";
         canRetry := true |})) w
  else if k =? "BROWSER_NOT_SUPPORTED" then
    upd_view (set_mediaError (Some
      {| message := "Your browser doesn't support video calling. Please use a modern browser like Chrome, Firefox, or Safari.";
         canRetry := false |})) w
  else
    upd_view (set_mediaError (Some
      {| message := "Media access error: " +:+ err_message e
                    +:+ ". Please check your device permissions and try again.";
         canRetry := true |})) w.

(** The two causes of media errors that the error taxonomy singles out:
    a refused permission, and constraints the devices cannot satisfy. *)
Definition permission_error (e : Error) : bool :=
  (error_key e =? "NotAllowedError") || (error_key e =? "PermissionDeniedError").

Definition constraint_error (e : Error) : bool :=
  (error_key e =? "OverconstrainedError")
  || (error_key e =? "ConstraintNotSatisfiedError").

Definition has_kind (k : TrackKind) (s : Stream) : bool :=
  existsb (fun t => kind_eqb (kind t) k) s.

(** The constraints after the availability check has switched off what
    has no device. *)
Definition available_constraints (b : Browser) (c : Constraints) : Constraints :=
  {| c_video := if negb (cameraAvailable b) && wanted (c_video c) then Off else c_video c;
     c_audio := if negb (microphoneAvailable b) && wanted (c_audio c) then Off else c_audio c |}.

Definition getMediaWithErrorHandling (b : Browser) (c : Constraints) (w : World)
  : World :=
  let w0 := upd_view (fun cs =>
              set_deviceErrors no_device_errors
                (set_permissionDenied false
                   (set_mediaError None (set_isLoadingMedia true cs)))) w in
  let w2 :=
    if negb (supported b) then
      handleMediaError {| err_name := "Error"; err_message := "BROWSER_NOT_SUPPORTED" |}
        (upd_view (set_callStatus Failed) w0)
    else
      let no_camera := negb (cameraAvailable b) && wanted (c_video c) in
      let no_microphone := negb (microphoneAvailable b) && wanted (c_audio c) in
      let c' := available_constraints b c in
      let w1 := log [GetUserMedia c']
                  (upd_view (set_deviceErrors
                     {| camera := no_camera; microphone := no_microphone |}) w0) in
      match getUserMedia b c' with
      | inl stream =>
          upd_view (fun cs =>
            set_callStatus Connected
              (set_localStream (Some stream)
                 (set_deviceErrors
                    {| camera := no_camera
                                 || (wanted (c_video c') && negb (has_kind video stream));
                       microphone := no_microphone
                                 || (wanted (c_audio c') && negb (has_kind audio stream)) |}
                    cs))) w1
      | inr e => handleMediaError e (upd_view (set_callStatus Failed) w1)
      end in
  upd_view (set_isLoadingMedia false) w2.

(** The callback of the timer that [handleMediaError] arms. *)
Definition media_retry (b : Browser) (w : World) : World :=
  getMediaWithErrorHandling b lower_quality
    (upd_view (fun cs => set_retryAttempts (S (retryAttempts cs)) cs) w).

(** The Retry button. *)
Definition retryMediaAccess (b : Browser) (w : World) : World :=
  getMediaWithErrorHandling b default_constraints (upd_view (set_retryAttempts 0) w).

(** *** Mounting and unmounting *)

Definition stop_tracks (s : Stream) : Stream :=
  map (fun t => {| kind := kind t; live := false |}) s.

(** [localStream.getTracks().forEach(track => track.stop())] *)
Definition stop_local_tracks (w : World) : World :=
  match localStream (view w) with
  | Some s =>
      log (map (fun t => TrackStop (kind t)) s)
        (upd_view (set_localStream (Some (stop_tracks s))) w)
  | None => w
  end.

(** The mount effect: a freshly mounted component asks for the media.  (The
    effect runs again when [retryAttempts] changes; that re-run is not part
    of the model.) *)
Definition mount (b : Browser) (w : World) : World :=
  getMediaWithErrorHandling b default_constraints (set_view initial_view w).

Definition mount_cleanup (w : World) : World :=
  clear_ref (statsIntervalRef (view w))
    (clear_ref (reconnectTimeoutRef (view w)) (stop_local_tracks w)).

(** The network-quality effect and its cleanup. *)
Definition stats_effect (w : World) : World :=
  match peerConnection (view w) with
  | Some _ =>
      if Store.callAccepted (store w)
      then upd_view (set_statsIntervalRef (Some (next_handle w)))
             (setInterval StatsTick STATS_INTERVAL w)
      else w
  | None => w
  end.

Definition stats_cleanup (w : World) : World :=
  clear_ref (statsIntervalRef (view w)) w.

(** *** The peer connection *)

(** [pc.close()] on the connection of the state. *)
Definition close_pc (w : World) : World :=
  match peerConnection (view w) with
  | Some pc =>
      log [PcClose]
        (upd_view (set_peerConnection
           (Some {| closed := true; remoteDescription := remoteDescription pc |})) w)
  | None => w
  end.

(** The peer-connection effect.  [answer] is what the chain
    setRemoteDescription / createAnswer / setLocalDescription yields for an
    incoming call: the local description, or nothing when the chain
    rejects. *)
Definition pc_effect (answer : option string) (w : World) : World :=
  match Store.socket (store w), localStream (view w), mediaError (view w) with
  | Some _, Some _, None =>
      let st := store w in
      let w1 := log [PcNew]
                  (upd_view (fun cs =>
                     set_peerConnection (Some {| closed := false; remoteDescription := None |})
                       (set_connectionError None (set_callStatus Connecting cs))) w) in
      let w2 :=
        match Store.callSignal st with
        | Some signal =>
            if Store.receivingCall st && negb (Store.callAccepted st) then
              let w' := log [PcSetRemoteDescription signal]
                          (upd_view (set_peerConnection
                             (Some {| closed := false; remoteDescription := Some signal |})) w1) in
              match answer with
              | Some localDescription =>
                  store_action (Store.answerCall localDescription) (log [PcCreateAnswer] w')
              | None =>
                  upd_view (set_connectionError
                    (Some "Failed to establish connection. Please try again.")) w'
              end
            else w1
        | None => w1
        end in
      match Store.callSignal st with
      | Some signal =>
          if Store.callAccepted st && negb (Store.receivingCall st) then
            log [PcSetRemoteDescription signal]
              (upd_view (set_peerConnection
                 (Some {| closed := false; remoteDescription := Some signal |})) w2)
          else w2
      | None => w2
      end
  | _, _, _ => w
  end.

Definition pc_effect_cleanup (w : World) : World := close_pc w.

(** [pc.onicecandidate]: both branches of the source pick [caller.from]. *)
Definition onicecandidate (candidate : option string) (w : World) : World :=
  match candidate with
  | Some c =>
      store_action (Store.sendIceCandidate c (Store.from (Store.caller (store w)))) w
  | None => w
  end.

(** The listener for "iceCandidate"; it is registered while the socket and
    the peer connection exist, and the store's own listener is empty. *)
Definition handleIceCandidate (candidate : string) (w : World) : World :=
  match Store.socket (store w), peerConnection (view w) with
  | Some _, Some _ => log [PcAddIceCandidate candidate] w
  | _, _ => w
  end.

(** *** Reconnection *)

(** [handleReconnection] up to the awaited 2 s wait. *)
Definition handleReconnection (w : World) : World :=
  if isReconnecting (view w) then w
  else
    setTimeout ReconnectResume 2000
      (clear_ref (reconnectTimeoutRef (view w))
         (upd_view (fun cs =>
            set_connectionError (Some "Connection lost. Attempting to reconnect...")
              (set_isReconnecting true cs)) w)).

(** [handleReconnection] after the wait. *)
Definition handleReconnection_resume (b : Browser) (w : World) : World :=
  let socket_ok := match Store.socket (store w) with
                   | Some sk => Store.connected sk
                   | None => false
                   end in
  let w1 :=
    if socket_ok then
      let w' := match localStream (view w) with
                | Some _ => w
                | None => getMediaWithErrorHandling b default_constraints w
                end in
      upd_view (fun cs => set_callStatus Connected (set_connectionError None cs)) w'
    else
      upd_view (set_socketError (Some "Socket disconnected. Please refresh the page.")) w in
  upd_view (set_isReconnecting false) w1.

Definition onconnectionstatechange (s : ConnectionState) (w : World) : World :=
  match s with
  | cs_connected =>
      upd_view (fun cs => set_connectionError None (set_callStatus Connected cs)) w
  | cs_disconnected =>
      handleReconnection (upd_view (set_callStatus Disconnected) w)
  | cs_failed =>
      upd_view (fun cs =>
        set_connectionError
          (Some "Connection failed. Please check your network and try again.")
          (set_callStatus Failed cs)) w
  | cs_closed => upd_view (set_callStatus Idle) w
  | _ => w
  end.

Definition oniceconnectionstatechange (s : IceConnectionState) (w : World) : World :=
  match s with
  | ice_failed =>
      upd_view (set_connectionError
        (Some "Network connection failed. Please check your internet connection.")) w
  | ice_disconnected => handleReconnection w
  | _ => w
  end.

(** *** Ending the call *)

Definition handleEndCall (w : World) : World :=
  let w1 := close_pc (stop_local_tracks w) in
  let w2 := clear_ref (statsIntervalRef (view w1))
              (clear_ref (reconnectTimeoutRef (view w1)) w1) in
  let w3 := upd_view (fun cs =>
              set_deviceErrors no_device_errors
                (set_isReconnecting false
                   (set_retryAttempts 0
                      (set_permissionDenied false
                         (set_callStatus Idle
                            (set_socketError None
                               (set_connectionError None
                                  (set_mediaError None cs)))))))) w2 in
  store_action Store.endCall w3.

(** The trace of stopping the tracks of the local stream and closing the
    peer connection, as [handleEndCall] does first. *)
Definition teardown_cmds (cs : State) : list Cmd :=
  match localStream cs with
  | Some s => map (fun t => TrackStop (kind t)) s
  | None => []
  end ++
  match peerConnection cs with
  | Some _ => [PcClose]
  | None => []
  end.

(** The Decline button: [rejectCall(); handleEndCall();] *)
Definition decline (w : World) : World :=
  handleEndCall (store_action Store.rejectCall w).

(** Unmounting runs the cleanups of the effects, in the order of the
    effects in the source. *)
Definition unmount (w : World) : World :=
  pc_effect_cleanup (mount_cleanup (stats_cleanup w)).

(** *** Timers firing *)

Definition run_callback (b : Browser) (cb : Callback) (w : World) : World :=
  match cb with
  | AnswerTimeout => store_action Store.answer_timeout w
  | MediaRetry => media_retry b w
  | ReconnectResume => handleReconnection_resume b w
  | StatsTick => w
  end.

(** The timer with handle [h] fires: a timeout leaves the table, an
    interval stays. *)
Definition fire (b : Browser) (h : nat) (w : World) : World :=
  match find (fun t => Nat.eqb (handle t) h) (timers w) with
  | Some t => run_callback b (callback t) (if repeats t then w else clearTimer h w)
  | None => w
  end.

(** The oldest pending timer fires. *)
Definition fire_next (b : Browser) (w : World) : World :=
  match timers w with
  | t :: _ => fire b (handle t) w
  | [] => w
  end.

(** A message of the server arrives at the tab. *)
Definition receive (msg : Relay.ServerMsg) (w : World) : World :=
  let w' := store_action (Store.deliver msg) w in
  match msg with
  | Relay.iceCandidateFwd c => handleIceCandidate c w'
  | _ => w'
  end.

(** *** The tab as a transition system *)

(** What can happen to a tab in which the component is mounted. *)
Inductive Event :=
| Receive (msg : Relay.ServerMsg)
| PcEffect (answer : option string)
| PcEffectCleanup
| StatsEffect
| StatsCleanup
| IceCandidateFound (candidate : option string)
| ConnectionStateChange (s : ConnectionState)
| IceConnectionStateChange (s : IceConnectionState)
| ClickEndCall
| ClickDecline
| ClickRetry
| TimerFires (h : nat)
| Unmount.

Definition step (b : Browser) (e : Event) (w : World) : World :=
  match e with
  | Receive msg => receive msg w
  | PcEffect answer => pc_effect answer w
  | PcEffectCleanup => pc_effect_cleanup w
  | StatsEffect => stats_effect w
  | StatsCleanup => stats_cleanup w
  | IceCandidateFound candidate => onicecandidate candidate w
  | ConnectionStateChange s => onconnectionstatechange s w
  | IceConnectionStateChange s => oniceconnectionstatechange s w
  | ClickEndCall => handleEndCall w
  | ClickDecline => decline w
  | ClickRetry => retryMediaAccess b w
  | TimerFires h => fire b h w
  | Unmount => unmount w
  end.

(** The tab after the component has been mounted and a sequence of events
    has happened, oldest first. *)
Definition after_mount (b : Browser) (es : list Event) (w : World) : World :=
  fold_left (fun w e => step b e w) es (mount b w).

(** Every pending timer has a handle that has been given out. *)
Definition handles_given_out (w : World) : bool :=
  forallb (fun t => Nat.ltb (handle t) (next_handle w)) (timers w).

(** [w'] comes after [w] in the life of the timer table: handles are only
    ever given out upwards, and a timer of [w'] is one of [w] or has one of
    the handles given out in between. *)
Definition grows (w w' : World) : Prop :=
  (next_handle w ≤ next_handle w')%nat ∧
  ∀ t, t ∈ timers w' →
       t ∈ timers w ∨ (next_handle w ≤ handle t < next_handle w')%nat.



(** The open devices of the tab: the tracks of the local stream that have
    not been stopped. *)
Definition live_tracks (w : World) : nat :=
  match localStream (view w) with
  | Some s => length (filter (fun t => live t = true) s)
  | None => 0
  end.

End VideoCall.

(** ** The tabs of the scenarios *)

Module Scenario.
Import VideoCall.

Definition ann_user : Store.User := {| Store._id := "A"; Store.fullName := "Ann" |}.
Definition bob_user : Store.User := {| Store._id := "B"; Store.fullName := "Bob" |}.
Definition online : Store.ClientSocket := {| Store.connected := true |}.

(** The stores of Ann and Bob: signed in, socket connected, no call yet. *)
Definition ann : Store.State := Store.initial (Some ann_user) (Some online).
Definition bob : Store.State := Store.initial (Some bob_user) (Some online).

Definition two_tracks : Stream :=
  [{| kind := video; live := true |}; {| kind := audio; live := true |}].

(** A browser with a working camera and microphone. *)
Definition working_browser : Browser :=
  {| supported := true; cameraAvailable := true; microphoneAvailable := true;
     getUserMedia := λ _, inl two_tracks |}.

(** A browser whose devices reject every set of constraints. *)
Definition overconstrained : Error :=
  {| err_name := "OverconstrainedError"; err_message := "" |}.

Definition demanding_browser : Browser :=
  {| supported := true; cameraAvailable := true; microphoneAvailable := true;
     getUserMedia := fun _ => inr overconstrained |}.

End Scenario.

(** ** The relay, seen from its users *)

Module RelayView.
Import Relay.

(** What the server sends to the target's socket for a client message. *)
Definition forwarded (msg : ClientMsg) : ServerMsg :=
  match msg with
  | callUser _ signalData from name => callUserFwd signalData from name
  | answerCall _ signal => callAccepted signal
  | iceCandidate _ candidate => iceCandidateFwd candidate
  | endCall _ => callEnded
  | rejectCall _ => callRejected
  end.




End RelayView.

(** ** Stores talking through the relay *)

Module Flow.

(** The server's emissions for the messages a store action emitted from
    the socket [sender]. *)
Definition relay (m : Relay.Registry) (sender : Relay.Socket)
    (effs : list Store.Effect) : list Relay.Out :=
  flat_map (Relay.on_message m sender) (Store.emitted effs).

(** The messages among the emissions that reach the socket [sid]. *)
Definition inbox (sid : string) (outs : list Relay.Out) : list Relay.ServerMsg :=
  omap (fun o : Relay.Out =>
          match fst o with
          | Relay.ToAll => Some (snd o)
          | Relay.To d => if bool_decide (d = sid) then Some (snd o) else None
          end) outs.

(** The store after its listeners have handled the messages, in order. *)
Definition deliver_all (msgs : list Relay.ServerMsg) (st : Store.State) : Store.State :=
  fold_left (fun st msg => fst (Store.deliver msg st)) msgs st.

End Flow.

(** ** What VideoCall shows (VideoCall.jsx, rendering and helpers) *)

Module Display.

(** The three screens of the component, or nothing. *)
Inductive Screen := CallingScreen | IncomingScreen | ActiveScreen | NoScreen.

(** The conditional rendering at the end of the component. *)
Definition content (st : Store.State) : Screen :=
  if negb (Store.receivingCall st) && negb (Store.callAccepted st)
     && negb (Store.callEnded st) && truthy_opt (Store.from (Store.caller st))
  then CallingScreen
  else if Store.receivingCall st && negb (Store.callAccepted st)
  then IncomingScreen
  else if Store.callAccepted st && negb (Store.callEnded st)
  then ActiveScreen
  else NoScreen.

(** What the page shows: HomePage renders the component or leaves it out. *)
Definition rendered (st : Store.State) : Screen :=
  if VideoCall.HomePage_shows_VideoCall st then content st else NoScreen.

(** The Answer button: [disabled={isLoadingMedia || mediaError ||
    permissionDenied}]. *)
Definition answer_disabled (cs : VideoCall.State) : bool :=
  VideoCall.isLoadingMedia cs
  || bool_decide (is_Some (VideoCall.mediaError cs))
  || VideoCall.permissionDenied cs.

(** [padStart(2, '0')] *)
Definition padStart2 (s : string) : string :=
  match String.length s with
  | 0 => "00" +:+ s
  | 1 => "0" +:+ s
  | _ => s
  end.

(** [formatDuration], for a whole number of seconds. *)
Definition formatDuration (seconds : nat) : string :=
  pretty (seconds / 60)%nat +:+ ":" +:+ padStart2 (pretty (seconds mod 60)%nat).

End Display.

(** ** Network quality (monitorNetworkQuality) *)

Module Stats.

Inductive ReportType := inbound_rtp | outbound_rtp | other_report.

#[global] Instance ReportType_eq_dec : EqDecision ReportType.
Proof. solve_decision. Defined.

(** A report of [getStats()]; a field may be missing. *)
Record Report := {
  r_type : ReportType;
  bytesReceived : option Z;
  packetsLost : option Z;
  bytesSent : option Z;
}.

Inductive Quality := unknown | good | fair | poor.

(** [v || 0] on a number that may be missing. *)
Definition or_zero (v : option Z) : Z :=
  match v with
  | Some x => x
  | None => 0
  end.

(** The three counters of the [forEach]. *)
Record Totals := {
  received : Z;
  sent : Z;
  lost : Z;
}.

Definition add_report (t : Totals) (r : Report) : Totals :=
  let t1 := match r_type r with
            | inbound_rtp =>
                {| received := received t + or_zero (bytesReceived r);
                   sent := sent t;
                   lost := lost t + or_zero (packetsLost r) |}
            | _ => t
            end in
  match r_type r with
  | outbound_rtp =>
      {| received := received t1; sent := sent t1 + or_zero (bytesSent r);
         lost := lost t1 |}
  | _ => t1
  end.

Definition totals (stats : list Report) : Totals :=
  fold_left add_report stats {| received := 0; sent := 0; lost := 0 |}.

Definition assess (packetsLost : Z) : Quality :=
  if (100 <? packetsLost)%Z then poor
  else if (10 <? packetsLost)%Z then fair
  else good.

(** [monitorNetworkQuality]: [pc] is the peer connection of the state,
    [stats] what [getStats()] yields (nothing when it rejects), [q] the
    quality shown so far; the result is the quality shown afterwards. *)
Definition monitorNetworkQuality (pc : option VideoCall.PeerConnection)
    (stats : option (list Report)) (q : Quality) : Quality :=
  match pc, stats with
  | Some _, Some reports => assess (lost (totals reports))
  | _, _ => q
  end.

(** The packets lost over the inbound streams of the reports. *)
Fixpoint inbound_loss (stats : list Report) : Z :=
  match stats with
  | [] => 0
  | r :: rest =>
      (match r_type r with
       | inbound_rtp => or_zero (packetsLost r)
       | _ => 0
       end + inbound_loss rest)%Z
  end.

(** The order of the indicator, from best to worst. *)
Definition badness (q : Quality) : nat :=
  match q with
  | unknown => 0
  | good => 1
  | fair => 2
  | poor => 3
  end.

(** [rs'] reports the same streams as [rs], none with fewer packets lost. *)
Definition no_fewer_lost (rs rs' : list Report) : Prop :=
  Forall2 (fun r r' => r_type r = r_type r'
                       ∧ (or_zero (packetsLost r) ≤ or_zero (packetsLost r'))%Z) rs rs'.

End Stats.

(** ** Microphone and camera buttons (toggleMic, toggleCamera) *)

Module Controls.

(** A track of the local stream with its [enabled] flag. *)
Record Track := {
  kind : VideoCall.TrackKind;
  enabled : bool;
}.

(** The local stream and the two flags of the component.  Each click is
    handled by the callback of the render that is current: both callbacks
    are rebuilt whenever [localStream] or their flag changes. *)
Record State := {
  localStream : option (list Track);
  micMuted : bool;
  cameraOff : bool;
}.

(** [getAudioTracks().forEach(track => track.enabled = !track.enabled)],
    and the same for video. *)
Definition flip (k : VideoCall.TrackKind) (s : list Track) : list Track :=
  map (fun t => if VideoCall.kind_eqb (kind t) k
                then {| kind := kind t; enabled := negb (enabled t) |}
                else t) s.

Definition toggleMic (c : State) : State :=
  match localStream c with
  | None => c
  | Some s =>
      {| localStream := Some (flip VideoCall.audio s);
         micMuted := negb (micMuted c); cameraOff := cameraOff c |}
  end.

Definition toggleCamera (c : State) : State :=
  match localStream c with
  | None => c
  | Some s =>
      {| localStream := Some (flip VideoCall.video s);
         micMuted := micMuted c; cameraOff := negb (cameraOff c) |}
  end.

Inductive Click := ClickMic | ClickCamera.

Definition click (c : State) (b : Click) : State :=
  match b with
  | ClickMic => toggleMic c
  | ClickCamera => toggleCamera c
  end.

(** The flags shown agree with the tracks: every audio track is enabled
    exactly when the microphone is not shown as muted, and every video
    track exactly when the camera is not shown as off. *)
Definition in_sync (c : State) : Prop :=
  ∀ s, localStream c = Some s →
       ∀ t, t ∈ s →
            enabled t = match kind t with
                        | VideoCall.audio => negb (micMuted c)
                        | VideoCall.video => negb (cameraOff c)
                        end.

End Controls.

(** ** Starting a call (ChatHeader.jsx) *)

Module ChatHeader.
Import VideoCall.

(** The component's own state. *)
Record State := {
  isCheckingPermissions : bool;
  permissionError : option string;
}.

(** What the browser answers during one click on the call button: whether
    [getUserMedia] exists, the outcome of the permission check's
    [getUserMedia], of the second [getUserMedia], and of [createOffer]
    with [setLocalDescription] (the offer, or nothing when one of them
    rejects). *)
Record Env := {
  supported : bool;
  check_media : Stream + Error;
  call_media : Stream + Error;
  offer : option string;
}.

Definition stops (s : Stream) : list Cmd := map (fun t => TrackStop (kind t)) s.

(** The message of [checkMediaPermissions] for a failure. *)
Definition permission_message (e : Error) : string :=
  "Unable to access camera and microphone. " +:+
  (if (err_name e =? "NotAllowedError") || (err_name e =? "PermissionDeniedError")
   then "Please allow camera and microphone access and try again."
   else if (err_name e =? "NotFoundError") || (err_name e =? "DevicesNotFoundError")
   then "No camera or microphone found. Please check your devices."
   else if (err_name e =? "NotReadableError") || (err_name e =? "TrackStartError")
   then "Camera or microphone is already in use by another application."
   else err_message e).

(** [checkMediaPermissions]: the new state, the world, and the result. *)
Definition checkMediaPermissions (env : Env) (cs : State) (w : World)
  : State * World * bool :=
  if negb (supported env) then
    ({| isCheckingPermissions := false;
        permissionError := Some (permission_message
          {| err_name := "Error";
             err_message := "Video calling is not supported in this browser" |}) |},
     w, false)
  else
    match check_media env with
    | inl stream =>
        ({| isCheckingPermissions := false; permissionError := None |},
         log (GetUserMedia default_constraints :: stops stream) w, true)
    | inr e =>
        ({| isCheckingPermissions := false;
            permissionError := Some (permission_message e) |},
         log [GetUserMedia default_constraints] w, false)
    end.

(** [handleCallUser], for the selected user and the list of online users
    of the store. *)
Definition handleCallUser (env : Env) (selectedUser : option Store.User)
    (onlineUsers : list string) (cs : State) (w : World) : State * World :=
  match selectedUser with
  | None => (cs, w)
  | Some user =>
      if negb (bool_decide (Store._id user ∈ onlineUsers)) then
        ({| isCheckingPermissions := isCheckingPermissions cs;
            permissionError := Some "User is currently offline. Cannot start video call." |},
         w)
      else
        let '(cs1, w1, hasPermissions) := checkMediaPermissions env cs w in
        if negb hasPermissions then (cs1, w1)
        else
          let failed := {| isCheckingPermissions := isCheckingPermissions cs1;
                           permissionError :=
                             Some "Failed to start video call. Please try again." |} in
          let w2 := log [PcNew; GetUserMedia default_constraints] w1 in
          match call_media env with
          | inr _ => (failed, w2)
          | inl stream =>
              match offer env with
              | None => (failed, w2)
              | Some sdp =>
                  (cs1,
                   log (stops stream)
                     (store_action
                        (Store.callUser (Store._id user) sdp (Store.fullName user)) w2))
              end
          end
  end.

(** How many tracks the trace leaves open: each [getUserMedia] that
    succeeded opened the tracks of its stream, each [track.stop()] closed
    one. *)
Fixpoint stopped (cmds : list Cmd) : nat :=
  match cmds with
  | [] => 0
  | TrackStop _ :: rest => S (stopped rest)
  | _ :: rest => stopped rest
  end.

End ChatHeader.

(** * Properties *)

Section RelayProps.
Import Relay.






(** C9: an [answerCall], [iceCandidate], [endCall] or [rejectCall] whose
    target has no entry in the registry makes the server emit nothing at
    all: nothing is forwarded and the sender gets no error.  The call
    invite is the one kind that is answered with [callFailed]. *)
Theorem offline_target_dropped (m : Registry) (s : Socket) (msg : ClientMsg) :
  m !! target msg = None →
  fst (step m (Message s msg)) = m ∧
  (is_invite msg = false → snd (step m (Message s msg)) = []) ∧
  (is_invite msg = true →
     snd (step m (Message s msg)) = [(To (id s), callFailed "User is offline")]).
Proof.
  intros Hnone. split; [done|].
  destruct msg; simpl in *; rewrite Hnone; split; intros; done.
Qed.

Lemma offline_target_dropped_witness :
  let a := {| id := "sA"; userId := Some "A" |} in
  snd (step ∅ (Message a (answerCall "B" "answer"))) = [] ∧
  snd (step ∅ (Message a (iceCandidate "B" "cand"))) = [] ∧
  snd (step ∅ (Message a (endCall "B"))) = [] ∧
  snd (step ∅ (Message a (rejectCall "B"))) = [].
Proof.
  pose (a := {| id := "sA"; userId := Some "A" |}).
  split; [|split; [|split]].
  - apply (offline_target_dropped ∅ a (answerCall "B" "answer")); reflexivity.
  - apply (offline_target_dropped ∅ a (iceCandidate "B" "cand")); reflexivity.
  - apply (offline_target_dropped ∅ a (endCall "B")); reflexivity.
  - apply (offline_target_dropped ∅ a (rejectCall "B")); reflexivity.
Defined.

End RelayProps.

Section StoreProps.
Import Store.




(** C10: [answerCall] with no caller recorded ([caller.from] undefined or
    empty) emits nothing and leaves the whole store as it was. *)
Theorem answerCall_without_caller (signal : string) (st : State) :
  truthy_opt (from (caller st)) = false →
  answerCall signal st = (st, []).
Proof.
  intros H. unfold answerCall. rewrite H. by destruct (socket st).
Qed.

Lemma answerCall_without_caller_witness :
  answerCall "answer" Scenario.bob = (Scenario.bob, []).
Proof.
  apply (answerCall_without_caller "answer" Scenario.bob).
  reflexivity.
Defined.

End StoreProps.

Section VideoCallProps.
Import VideoCall Scenario.

(** *** What the media functions leave alone *)

Lemma handleMediaError_frame (e : Error) (w : World) :
  store (handleMediaError e w) = store w ∧
  trace (handleMediaError e w) = trace w ∧
  localStream (view (handleMediaError e w)) = localStream (view w) ∧
  peerConnection (view (handleMediaError e w)) = peerConnection (view w).
Proof.
  unfold handleMediaError.
  repeat match goal with
         | |- context [if ?c then _ else _] => destruct c
         end; done.
Qed.

Lemma wire_app (l1 l2 : list Cmd) : wire (l1 ++ l2) = wire l1 ++ wire l2.
Proof.
  induction l1 as [|c l1 IH]; [done|].
  destruct c; simpl; by rewrite IH.
Qed.


Lemma wire_track_stops (s : Stream) :
  wire (map (λ t, TrackStop (kind t)) s) = [].
Proof. by induction s. Qed.

Lemma live_stop_tracks (s : Stream) :
  filter (λ t, live t = true) (stop_tracks s) = [].
Proof. induction s as [|t s IH]; [done|]. simpl. by rewrite filter_cons_False. Qed.

(** *** ICE candidates *)




(** *** Ringing *)

Lemma getMedia_trace (b : Browser) (c : Constraints) (w : World) :
  supported b = true →
  trace (getMediaWithErrorHandling b c w)
    = trace w ++ [GetUserMedia (available_constraints b c)] ∧
  localStream (view (getMediaWithErrorHandling b c w))
    = match getUserMedia b (available_constraints b c) with
      | inl s => Some s
      | inr _ => localStream (view w)
      end.
Proof.
  intros Hsup. unfold getMediaWithErrorHandling. rewrite Hsup. simpl.
  destruct (getUserMedia b _) as [s|e]; simpl; [done|].
  match goal with
  | |- context [handleMediaError e ?w0] =>
      destruct (handleMediaError_frame e w0) as (_ & -> & -> & _)
  end.
  done.
Qed.

Lemma decline_ringing (w : World) (sk : Store.ClientSocket) (f : string) :
  Store.socket (store w) = Some sk →
  Store.from (Store.caller (store w)) = Some f →
  truthy f = true →
  trace (decline w) = trace w ++ Wire (Relay.rejectCall f) :: teardown_cmds (view w) ∧
  Store.callEnded (store (decline w)) = true ∧
  Store.receivingCall (store (decline w)) = false ∧
  live_tracks (decline w) = 0.
Proof.
  destruct w as [st cs ti nh tr]. simpl. intros Hsk Hf Ht.
  unfold decline, store_action, Store.rejectCall. simpl. rewrite Hsk, Hf. simpl.
  rewrite Ht.
  destruct cs as [ls pc me ce se lm pd ra cst rc de [[|r1]|] [[|r2]|]];
    destruct ls as [s|], pc as [p|]; vm_compute stop_local_tracks;
    cbn; rewrite ?live_stop_tracks, <- ?app_assoc, ?app_nil_r; done.
Qed.




(** *** Reconnection *)

Lemma find_fresh_handle (ts : list Timer) (t : Timer) (n : nat) :
  forallb (λ t, Nat.ltb (handle t) n) ts = true →
  handle t = n →
  find (λ t, Nat.eqb (handle t) n) (ts ++ [t]) = Some t.
Proof.
  intros Hts Ht. induction ts as [|t0 ts IH]; simpl in *.
  - by rewrite Ht, Nat.eqb_refl.
  - apply andb_true_iff in Hts as [Hlt Hts].
    apply Nat.ltb_lt in Hlt.
    destruct (Nat.eqb_spec (handle t0) n) as [Heq|_]; [lia|by apply IH].
Qed.

Lemma filter_fresh_handle (ts : list Timer) (t : Timer) (n : nat) :
  forallb (λ t, Nat.ltb (handle t) n) ts = true →
  handle t = n →
  filter (λ t, handle t ≠ n) (ts ++ [t]) = ts.
Proof.
  intros Hts Ht. induction ts as [|t0 ts IH]; simpl in *.
  - by rewrite filter_cons_False, filter_nil; [|intros H; apply H].
  - apply andb_true_iff in Hts as [Hlt Hts].
    apply Nat.ltb_lt in Hlt.
    rewrite filter_cons_True by lia. by rewrite IH.
Qed.



(** *** The timer table *)

Lemma grows_refl (w : World) : grows w w.
Proof. split; [done|]. intros t Ht. by left. Qed.

Lemma grows_upd_view (f : State → State) (w0 w : World) :
  grows w0 w → grows w0 (upd_view f w).
Proof. done. Qed.

Lemma grows_log (cmds : list Cmd) (w0 w : World) :
  grows w0 w → grows w0 (log cmds w).
Proof. done. Qed.

Lemma grows_set_store (st : Store.State) (w0 w : World) :
  grows w0 w → grows w0 (set_store st w).
Proof. done. Qed.

Lemma grows_set_view (cs : State) (w0 w : World) :
  grows w0 w → grows w0 (set_view cs w).
Proof. done. Qed.

Lemma grows_add_timer (cb : Callback) (ms : N) (rep : bool) (w0 w : World) :
  grows w0 w → grows w0 (add_timer cb ms rep w).
Proof.
  intros [Hle Hin]. split; simpl; [lia|].
  intros t Ht. apply elem_of_app in Ht as [Ht|Ht].
  - destruct (Hin t Ht) as [?|?]; [by left|right; lia].
  - apply list_elem_of_singleton in Ht as ->. simpl. right. lia.
Qed.

Lemma grows_clearTimer (h : nat) (w0 w : World) :
  grows w0 w → grows w0 (clearTimer h w).
Proof.
  intros [Hle Hin]. split; simpl; [done|].
  intros t Ht. apply list_elem_of_filter in Ht as [_ Ht]. by apply Hin.
Qed.

Lemma grows_clear_ref (r : option nat) (w0 w : World) :
  grows w0 w → grows w0 (clear_ref r w).
Proof. destruct r as [[|h]|]; simpl; auto using grows_clearTimer. Qed.

Lemma grows_perform (effs : list Store.Effect) (w0 w : World) :
  grows w0 w → grows w0 (perform effs w).
Proof.
  revert w. induction effs as [|[msg|text|cb ms] effs IH]; intros w Hw; simpl;
    [done|apply IH..].
  - by apply grows_log.
  - by apply grows_log.
  - by apply grows_add_timer.
Qed.

Lemma grows_store_action (f : Store.State → Store.State * list Store.Effect)
    (w0 w : World) :
  grows w0 w → grows w0 (store_action f w).
Proof. intros Hw. by apply grows_perform, grows_set_store. Qed.

Create HintDb timers.

#[local] Hint Resolve grows_refl grows_upd_view grows_log grows_set_store
  grows_set_view grows_add_timer grows_clearTimer grows_clear_ref
  grows_perform grows_store_action : timers.

(** Case analysis on whatever the handler branches on, then the lemmas
    above along the nesting of the updates. *)
Ltac grows_cases :=
  repeat match goal with
         | |- context [match ?x with _ => _ end] => destruct x
         end;
  eauto 20 with timers.

Lemma grows_handleMediaError (e : Error) (w0 w : World) :
  grows w0 w → grows w0 (handleMediaError e w).
Proof. intros Hw. unfold handleMediaError, setTimeout. grows_cases. Qed.

Lemma grows_getMedia (b : Browser) (c : Constraints) (w0 w : World) :
  grows w0 w → grows w0 (getMediaWithErrorHandling b c w).
Proof.
  intros Hw. unfold getMediaWithErrorHandling.
  destruct (negb (supported b)); [|destruct (getUserMedia b _)];
    eauto 20 using grows_handleMediaError with timers.
Qed.

#[local] Hint Resolve grows_handleMediaError grows_getMedia : timers.

Lemma grows_step (b : Browser) (e : Event) (w : World) : grows w (step b e w).
Proof.
  destruct e; cbn [step].
  - unfold receive, handleIceCandidate. grows_cases.
  - unfold pc_effect. grows_cases.
  - unfold pc_effect_cleanup, close_pc. grows_cases.
  - unfold stats_effect, setInterval. grows_cases.
  - unfold stats_cleanup. grows_cases.
  - unfold onicecandidate. grows_cases.
  - unfold onconnectionstatechange, handleReconnection, setTimeout. grows_cases.
  - unfold oniceconnectionstatechange, handleReconnection, setTimeout. grows_cases.
  - unfold handleEndCall, close_pc, stop_local_tracks. grows_cases.
  - unfold decline, handleEndCall, close_pc, stop_local_tracks. grows_cases.
  - unfold retryMediaAccess. grows_cases.
  - unfold fire, run_callback, media_retry, handleReconnection_resume. grows_cases.
  - unfold unmount, pc_effect_cleanup, close_pc, mount_cleanup, stats_cleanup,
      stop_local_tracks. grows_cases.
Qed.

Lemma handles_given_out_grows (w w' : World) :
  handles_given_out w = true → grows w w' → handles_given_out w' = true.
Proof.
  unfold handles_given_out. rewrite !forallb_forall.
  intros Hw [Hle Hin] t Ht. apply Nat.ltb_lt.
  apply list_elem_of_In, Hin in Ht as [Ht|Ht]; [|lia].
  apply list_elem_of_In, Hw, Nat.ltb_lt in Ht. lia.
Qed.

(** In every state the tab reaches from a fresh one, each pending timer
    has a handle that has been given out. *)
Lemma handles_given_out_always (b : Browser) (es : list Event) (st : Store.State) :
  handles_given_out (after_mount b es (fresh st)) = true.
Proof.
  unfold after_mount.
  assert (handles_given_out (mount b (fresh st)) = true) as H0.
  { apply (handles_given_out_grows (fresh st)); [done|].
    unfold mount. auto with timers. }
  revert H0. generalize (mount b (fresh st)).
  induction es as [|e es IH]; intros w Hw; simpl; [done|].
  apply IH, (handles_given_out_grows w); [done|apply grows_step].
Qed.

(** *** Media errors *)


Lemma handleMediaError_constraint (e : Error) (w : World) :
  constraint_error e = true →
  handleMediaError e w =
    if Nat.ltb (retryAttempts (view w)) MAX_RETRY_ATTEMPTS then
      upd_view (set_mediaError (Some
        {| message := "Camera/microphone constraints cannot be satisfied. Trying with lower quality...";
           canRetry := true |}))
        (setTimeout MediaRetry 1000 w)
    else
      upd_view (set_mediaError (Some
        {| message := "Failed to get media with available constraints after multiple attempts.";
           canRetry := false |})) w.
Proof.
  unfold constraint_error, handleMediaError. intros H.
  apply orb_true_iff in H as [H|H]; apply String.eqb_eq in H; rewrite H; done.
Qed.




(** The oldest timer, a media retry, fires in a browser that fails with the
    constraint error [e]: unfold the step in [H] and compute. *)
Ltac retry_fails H Hgum He :=
  unfold fire_next, fire, run_callback, media_retry, getMediaWithErrorHandling in H;
  cbn [supported getUserMedia negb timers handle find Nat.eqb repeats callback] in H;
  rewrite Hgum, (handleMediaError_constraint _ _ He) in H;
  cbv -[available_constraints] in H.

(** Along the chain error, timer, retry, error: when the browser keeps
    answering with a constraint error, each of the first three failures
    arms one retry, and the failure of the third retry arms none. *)
Lemma constraint_retries_stop_after_three (b : Browser) (e : Error)
    (st : Store.State) :
  supported b = true →
  (∀ c, getUserMedia b c = inr e) →
  constraint_error e = true →
  let after k := Nat.iter k (fire_next b) (mount b (fresh st)) in
  (∀ k, (k < 3)%nat →
     map callback (timers (after k)) = [MediaRetry] ∧
     retryAttempts (view (after k)) = k) ∧
  timers (after 3) = [] ∧
  retryAttempts (view (after 3)) = 3 ∧
  canRetry <$> mediaError (view (after 3)) = Some false ∧
  trace (after 3)
    = GetUserMedia (available_constraints b default_constraints)
      :: replicate 3 (GetUserMedia (available_constraints b lower_quality)) ∧
  after 4 = after 3.
Proof.
  destruct b as [sup cam mic gum]. cbn [supported getUserMedia].
  intros -> Hgum He.
  set (b := {| supported := true; cameraAvailable := cam;
               microphoneAvailable := mic; getUserMedia := gum |}).
  assert (∀ k, (k < 3)%nat ↔ k = 0 ∨ k = 1 ∨ k = 2) as Hk by lia.
  setoid_rewrite Hk. clear Hk.
  assert (∀ w, ∃ w', w' = fire_next b w) as Hnext by eauto.
  remember (mount b (fresh st)) as w0 eqn:H0.
  destruct (Hnext w0) as (w1 & H1). destruct (Hnext w1) as (w2 & H2).
  destruct (Hnext w2) as (w3 & H3). destruct (Hnext w3) as (w4 & H4).
  assert (∀ k, k = 0 ∨ k = 1 ∨ k = 2 →
            Nat.iter k (fire_next b) w0
            = match k with 0 => w0 | 1 => w1 | _ => w2 end) as Hiter.
  { intros k [-> | [-> | ->]]; cbv [Nat.iter nat_rect]; congruence. }
  assert (Nat.iter 3 (fire_next b) w0 = w3 ∧ Nat.iter 4 (fire_next b) w0 = w4)
    as [-> ->] by (cbv [Nat.iter nat_rect]; split; congruence).
  subst b.
  unfold mount, getMediaWithErrorHandling in H0.
  cbn [supported getUserMedia negb] in H0.
  rewrite Hgum, (handleMediaError_constraint _ _ He) in H0.
  cbv -[available_constraints] in H0.
  rewrite H0 in H1. retry_fails H1 Hgum He.
  rewrite H1 in H2. retry_fails H2 Hgum He.
  rewrite H2 in H3. retry_fails H3 Hgum He.
  rewrite H3 in H4. unfold fire_next in H4. cbn [timers] in H4. rewrite <- H3 in H4.
  split.
  - intros k Hk. rewrite (Hiter k Hk).
    destruct Hk as [-> | [-> | ->]]; [rewrite H0|rewrite H1|rewrite H2]; done.
  - rewrite H4, H3. done.
Qed.



(** *** Teardown *)

(** Whatever a store action does, the component's state is as before. *)
Lemma perform_view (effs : list Store.Effect) (w : World) :
  view (perform effs w) = view w.
Proof.
  revert w. induction effs as [|[msg|text|cb ms] effs IH]; intros w; simpl;
    [done|by rewrite IH..].
Qed.

Lemma store_action_view (f : Store.State → Store.State * list Store.Effect) (w : World) :
  view (store_action f w) = view w.
Proof. unfold store_action. by rewrite perform_view. Qed.

Lemma handleMediaError_ref (e : Error) (w : World) :
  reconnectTimeoutRef (view (handleMediaError e w)) = reconnectTimeoutRef (view w).
Proof.
  unfold handleMediaError.
  repeat match goal with
         | |- context [if ?c then _ else _] => destruct c
         end; done.
Qed.

Lemma getMedia_ref (b : Browser) (c : Constraints) (w : World) :
  reconnectTimeoutRef (view (getMediaWithErrorHandling b c w))
    = reconnectTimeoutRef (view w).
Proof.
  unfold getMediaWithErrorHandling.
  destruct (supported b); simpl; [|done].
  destruct (getUserMedia b _) as [s|e]; simpl; [done|].
  by rewrite handleMediaError_ref.
Qed.

Ltac ref_unchanged :=
  repeat first
    [ progress rewrite ?store_action_view, ?getMedia_ref, ?handleMediaError_ref, ?perform_view
    | done
    | congruence
    | progress cbn -[getMediaWithErrorHandling handleMediaError store_action perform]
    | match goal with
      | |- context [match ?x with _ => _ end] => destruct x eqn:?
      end ].

Lemma reconnectTimeoutRef_step (b : Browser) (e : Event) (w : World) :
  reconnectTimeoutRef (view (step b e w)) = reconnectTimeoutRef (view w).
Proof.
  destruct e; cbn [step].
  - unfold receive, handleIceCandidate. destruct msg; ref_unchanged.
  - unfold pc_effect. ref_unchanged.
  - unfold pc_effect_cleanup, close_pc. ref_unchanged.
  - unfold stats_effect. ref_unchanged.
  - unfold stats_cleanup, clear_ref. ref_unchanged.
  - unfold onicecandidate. ref_unchanged.
  - unfold onconnectionstatechange, handleReconnection, clear_ref. ref_unchanged.
  - unfold oniceconnectionstatechange, handleReconnection, clear_ref. ref_unchanged.
  - unfold handleEndCall, close_pc, stop_local_tracks, clear_ref. ref_unchanged.
  - unfold decline, handleEndCall, close_pc, stop_local_tracks, clear_ref. ref_unchanged.
  - unfold retryMediaAccess. ref_unchanged.
  - unfold fire, run_callback, media_retry, handleReconnection_resume. ref_unchanged.
  - unfold unmount, pc_effect_cleanup, close_pc, mount_cleanup, stats_cleanup,
      stop_local_tracks, clear_ref. ref_unchanged.
Qed.

(** No statement assigns [reconnectTimeoutRef.current]: it is empty once
    the component is mounted and stays so whatever happens. *)
Lemma reconnectTimeoutRef_never_assigned (b : Browser) (es : list Event) (w : World) :
  reconnectTimeoutRef (view (after_mount b es w)) = None.
Proof.
  unfold after_mount.
  assert (reconnectTimeoutRef (view (mount b w)) = None) as H0.
  { unfold mount. by rewrite getMedia_ref. }
  revert H0. generalize (mount b w). clear w.
  induction es as [|e es IH]; intros w Hw; simpl; [done|].
  apply IH. by rewrite reconnectTimeoutRef_step.
Qed.


(** What [handleEndCall] does release: every track of the local stream is
    stopped, the peer connection is closed, and the store's call is ended. *)
Lemma handleEndCall_releases_media (w : World) :
  live_tracks (handleEndCall w) = 0 ∧
  closed <$> peerConnection (view (handleEndCall w))
    = (λ _, true) <$> peerConnection (view w) ∧
  Store.callEnded (store (handleEndCall w)) = true.
Proof.
  destruct w as [st cs ti nh tr].
  destruct cs as [ls pc me ce se lm pd ra cst rc de [[|r1]|] [[|r2]|]];
    destruct ls as [s|], pc as [p|];
    unfold handleEndCall, live_tracks; rewrite store_action_view;
    unfold store_action, Store.endCall; cbn;
    rewrite ?live_stop_tracks;
    (split; [done|split; [done|]]);
    by destruct (Store.socket st), (truthy_opt (Store.from (Store.caller st))).
Qed.

(** C7, at the failing input.  Bob is in an accepted call (local stream,
    peer connection, statistics interval).  The transport reports
    "disconnected", so a reconnection wait of 2 s is pending, and Bob
    clicks End Call before it is over.  [handleEndCall] stops both tracks,
    closes the peer connection, clears the statistics interval and ends
    the store's call, but the reconnection wait is still pending
    afterwards: its handle was never stored in [reconnectTimeoutRef], so
    the [clearTimeout] of the teardown finds nothing to clear.  The same
    timer survives the unmount, and the teardown after a remote
    [callEnded].  When it fires, it sets the status of the ended call to
    connected. *)
Theorem hangup_leaves_reconnect_wait :
  let invited := receive (Relay.callUserFwd "offer" "A" "Ann") (fresh bob) in
  let answered := pc_effect (Some "answer") (mount working_browser invited) in
  let in_call := stats_effect (pc_effect None (pc_effect_cleanup answered)) in
  let waiting := onconnectionstatechange cs_disconnected
                   (onconnectionstatechange cs_connected in_call) in
  let stats := {| handle := 1; callback := StatsTick; delay := 1000; repeats := true |} in
  let wait := {| handle := 2; callback := ReconnectResume; delay := 2000;
                 repeats := false |} in
  let ended := handleEndCall waiting in
  timers waiting = [stats; wait] ∧
  reconnectTimeoutRef (view waiting) = None ∧
  Store.callEnded (store ended) = true ∧
  live_tracks ended = 0 ∧
  closed <$> peerConnection (view ended) = Some true ∧
  timers ended = [wait] ∧
  timers (unmount ended) = [wait] ∧
  timers (unmount (receive Relay.callEnded waiting)) = [wait] ∧
  callStatus (view ended) = Idle ∧
  callStatus (view (fire working_browser 2 ended)) = Connected.
Proof. vm_compute. repeat split. Qed.

End VideoCallProps.

(** * More of the relay *)

Section RelayMore.
Import Relay RelayView.







(** X4: the relay is transparent.  For each of the five kinds, a message
    whose target is registered goes out exactly once, to the target's
    socket, with its payload unchanged; and whatever the registry holds, a
    client message makes the server emit at most one message, which is
    that forward or the [callFailed] to the sender, never a broadcast. *)
Theorem relay_is_transparent (m : Registry) (s : Socket) (msg : ClientMsg) :
  (∀ sid, m !! target msg = Some sid → truthy sid = true →
          on_message m s msg = [(To sid, forwarded msg)]) ∧
  (length (on_message m s msg) ≤ 1)%nat ∧
  (∀ o, o ∈ on_message m s msg →
        (is_invite msg = true ∧ o = (To (id s), callFailed "User is offline")) ∨
        (∃ sid, m !! target msg = Some sid ∧ o = (To sid, forwarded msg))).
Proof.
  split; [|split].
  - intros sid Hsid Ht. destruct msg; simpl in *; by rewrite Hsid, Ht.
  - destruct msg; simpl; destruct (m !! _) as [sid|]; simpl;
      try destruct (truthy sid); simpl; lia.
  - intros o Ho.
    destruct msg; simpl in *; destruct (m !! _) as [sid|] eqn:Hsid; simpl in *;
      try destruct (truthy sid); simpl in *;
      try (by apply elem_of_nil in Ho);
      apply list_elem_of_singleton in Ho as ->; eauto.
Qed.

Lemma relay_is_transparent_witness :
  on_message {[ "A" := "sA" ]} {| id := "sB"; userId := Some "B" |}
             (answerCall "A" "answer")
    = [(To "sA", callAccepted "answer")].
Proof.
  apply (relay_is_transparent {[ "A" := "sA" ]} {| id := "sB"; userId := Some "B" |}
           (answerCall "A" "answer")); reflexivity.
Defined.




End RelayMore.

(** * More of the store *)

Section StoreMore.
Import Store.

(** X6: a store whose call has been ended is silent.  After [endCall],
    none of [endCall], [answerCall], [rejectCall] and [sendIceCandidate]
    (to the recorded party) emits anything, and a second [endCall] leaves
    the store as it is: no peer is told twice that a call ended. *)
Theorem ended_store_is_silent (st : State) (signal candidate : string) :
  let ended := fst (endCall st) in
  endCall ended = (ended, []) ∧
  answerCall signal ended = (ended, []) ∧
  rejectCall ended = (ended, []) ∧
  sendIceCandidate candidate (from (caller ended)) ended = (ended, []).
Proof.
  simpl. unfold endCall, answerCall, rejectCall, sendIceCandidate. simpl.
  by destruct (socket st).
Qed.

(** X8: the timeout is not bound to the call that armed it.  When it fires
    while an incoming call is ringing (an invite that arrived after the
    outgoing call was placed), it ends that incoming call: the store shows
    "Call not answered", becomes ended, and emits [endCall] to the party
    that is calling. *)
Theorem answer_timeout_ends_ringing_call (st : State) (sk : ClientSocket)
    (from name signal : string) :
  socket st = Some sk →
  truthy from = true →
  let ringing := on_callUser from name signal st in
  let fired := answer_timeout ringing in
  receivingCall ringing = true ∧
  callEnded (fst fired) = true ∧
  receivingCall (fst fired) = false ∧
  notices (snd fired) = ["Call not answered"] ∧
  emitted (snd fired) = [Relay.endCall from].
Proof.
  intros Hsk Hfrom. unfold answer_timeout, endCall. simpl.
  rewrite Hsk, Hfrom. done.
Qed.

Lemma answer_timeout_ends_ringing_call_witness :
  let calling := fst (callUser "B" "offer" "Bob" Scenario.ann) in
  let fired := answer_timeout (on_callUser "C" "Cid" "offer2" calling) in
  callEnded (fst fired) = true ∧ emitted (snd fired) = [Relay.endCall "C"].
Proof.
  pose proof (answer_timeout_ends_ringing_call
                (fst (callUser "B" "offer" "Bob" Scenario.ann)) Scenario.online
                "C" "Cid" "offer2" eq_refl eq_refl) as H.
  cbv zeta in H. cbv zeta. split; apply H.
Defined.

(** X9: [callUser] does not reset [callEnded].  In a store whose previous
    call has ended, a new outgoing call has no working timeout (it fires
    without effect), and when the callee accepts, HomePage still does not
    render VideoCall. *)
Theorem outgoing_call_after_ended_call (st : State) (sk : ClientSocket) (u : User)
    (userToCall signalData name answer : string) :
  socket st = Some sk →
  authUser st = Some u →
  callEnded st = true →
  let calling := fst (callUser userToCall signalData name st) in
  emitted (snd (callUser userToCall signalData name st))
    = [Relay.callUser userToCall signalData (_id u) (fullName u)] ∧
  answer_timeout calling = (calling, []) ∧
  callAccepted (on_callAccepted answer calling) = true ∧
  VideoCall.HomePage_shows_VideoCall (on_callAccepted answer calling) = false.
Proof.
  intros Hsk Hu He. unfold callUser, answer_timeout, VideoCall.HomePage_shows_VideoCall.
  rewrite Hsk, Hu. simpl. rewrite He. simpl. by rewrite andb_false_r.
Qed.

Lemma outgoing_call_after_ended_call_witness :
  let st := fst (endCall Scenario.ann) in
  let calling := fst (callUser "B" "offer" "Bob" st) in
  answer_timeout calling = (calling, []) ∧
  VideoCall.HomePage_shows_VideoCall (on_callAccepted "answer" calling) = false.
Proof.
  pose proof (outgoing_call_after_ended_call (fst (endCall Scenario.ann))
                Scenario.online Scenario.ann_user "B" "offer" "Bob" "answer"
                eq_refl eq_refl eq_refl) as H.
  cbv zeta in H. cbv zeta. split; apply H.
Defined.

End StoreMore.

(** * Calls through the relay *)

Section CallFlow.
Import Store Flow.

(** X12: invite and answer, end to end.  With caller and callee both
    registered, the caller's [callUser] reaches only the callee's socket;
    the callee's store then rings with the caller's id, name and offer,
    and HomePage renders VideoCall.  The callee's [answerCall] reaches
    only the caller's socket, and the caller's store then has the call
    accepted with the callee's answer as [callSignal]. *)
Theorem invite_and_answer_end_to_end (m : Relay.Registry)
    (a b : State) (ua : User) (ska skb : ClientSocket)
    (sockA sockB : Relay.Socket) (callee offer name answer : string) :
  socket a = Some ska → authUser a = Some ua → socket b = Some skb →
  truthy (_id ua) = true →
  m !! callee = Some (Relay.id sockB) → truthy (Relay.id sockB) = true →
  m !! _id ua = Some (Relay.id sockA) → truthy (Relay.id sockA) = true →
  Relay.id sockA ≠ Relay.id sockB →
  let invite := callUser callee offer name a in
  let sent := relay m sockA (snd invite) in
  let ringing := deliver_all (inbox (Relay.id sockB) sent) b in
  let answered := answerCall answer ringing in
  let back := relay m sockB (snd answered) in
  let accepted := deliver_all (inbox (Relay.id sockA) back) (fst invite) in
  sent = [(Relay.To (Relay.id sockB),
           Relay.callUserFwd offer (_id ua) (fullName ua))] ∧
  inbox (Relay.id sockA) sent = [] ∧
  receivingCall ringing = true ∧
  caller ringing = {| from := Some (_id ua); name := Some (fullName ua) |} ∧
  callSignal ringing = Some offer ∧
  VideoCall.HomePage_shows_VideoCall ringing = true ∧
  back = [(Relay.To (Relay.id sockA), Relay.callAccepted answer)] ∧
  callAccepted (fst answered) = true ∧
  callAccepted accepted = true ∧
  callSignal accepted = Some answer ∧
  caller accepted = {| from := Some callee; name := Some name |}.
Proof.
  intros Hsa Hua Hsb Htu HmB HtB HmA HtA Hne.
  unfold callUser, relay. rewrite Hsa, Hua. cbn.
  rewrite HmB, HtB. cbn.
  rewrite (bool_decide_true (Relay.id sockB = Relay.id sockB)) by done.
  rewrite (bool_decide_false (Relay.id sockB = Relay.id sockA)) by done. cbn.
  unfold answerCall. cbn. rewrite Hsb, Htu. cbn.
  rewrite HmA, HtA. cbn.
  rewrite (bool_decide_true (Relay.id sockA = Relay.id sockA)) by done. cbn.
  done.
Qed.

Lemma invite_and_answer_end_to_end_witness :
  let m : Relay.Registry := {[ "A" := "sA"; "B" := "sB" ]} in
  let sockA := {| Relay.id := "sA"; Relay.userId := Some "A" |} in
  let sockB := {| Relay.id := "sB"; Relay.userId := Some "B" |} in
  let invite := callUser "B" "offer" "Bob" Scenario.ann in
  let ringing := deliver_all (inbox "sB" (relay m sockA (snd invite))) Scenario.bob in
  let back := relay m sockB (snd (answerCall "answer" ringing)) in
  receivingCall ringing = true ∧
  callSignal (deliver_all (inbox "sA" back) (fst invite)) = Some "answer".
Proof.
  pose proof (invite_and_answer_end_to_end {[ "A" := "sA"; "B" := "sB" ]}
    Scenario.ann Scenario.bob Scenario.ann_user Scenario.online Scenario.online
    {| Relay.id := "sA"; Relay.userId := Some "A" |}
    {| Relay.id := "sB"; Relay.userId := Some "B" |} "B" "offer" "Bob" "answer"
    eq_refl eq_refl eq_refl eq_refl eq_refl eq_refl eq_refl eq_refl
    ltac:(discriminate)) as H.
  cbv zeta in H. cbv zeta.
  destruct H as (_ & _ & Hring & _ & _ & _ & _ & _ & _ & Hsig & _).
  split; [exact Hring|exact Hsig].
Defined.



(** X10: Decline, end to end.  The Decline button of a tab with a socket
    and a recorded caller sends exactly one message, [rejectCall] to the
    caller, and no [endCall]; HomePage there no longer renders VideoCall.
    The server forwards it to the caller's socket only.  The caller's
    store shows "Call rejected by user" and is ended, nothing is sent
    back, and the caller's answer timeout does nothing when it fires
    afterwards. *)
Theorem decline_end_to_end (m : Relay.Registry) (wb : VideoCall.World) (a : State)
    (skb : ClientSocket) (sockA sockB : Relay.Socket) (peer : string) :
  socket (VideoCall.store wb) = Some skb →
  from (caller (VideoCall.store wb)) = Some peer →
  truthy peer = true →
  m !! peer = Some (Relay.id sockA) → truthy (Relay.id sockA) = true →
  let declined := VideoCall.decline wb in
  let sent := Relay.on_message m sockB (Relay.rejectCall peer) in
  let told := deliver_all (inbox (Relay.id sockA) sent) a in
  VideoCall.wire (VideoCall.trace declined)
    = VideoCall.wire (VideoCall.trace wb) ++ [Relay.rejectCall peer] ∧
  VideoCall.HomePage_shows_VideoCall (VideoCall.store declined) = false ∧
  sent = [(Relay.To (Relay.id sockA), Relay.callRejected)] ∧
  deliver Relay.callRejected a = (told, [ToastError "Call rejected by user"]) ∧
  callEnded told = true ∧
  VideoCall.HomePage_shows_VideoCall told = false ∧
  answer_timeout told = (told, []).
Proof.
  intros Hsk Hf Ht Hm Hts. cbv zeta.
  destruct (decline_ringing wb skb peer Hsk Hf Ht) as (Htr & Hce & Hrc & _).
  split; [|split].
  - rewrite Htr, wire_app. f_equal. simpl. f_equal.
    unfold VideoCall.teardown_cmds. rewrite wire_app.
    destruct (VideoCall.localStream _), (VideoCall.peerConnection _);
      by rewrite ?wire_track_stops.
  - unfold VideoCall.HomePage_shows_VideoCall. by rewrite Hce, Hrc, andb_false_r.
  - simpl. rewrite Hm, Hts. simpl.
    by rewrite (bool_decide_true (Relay.id sockA = Relay.id sockA)) by done.
Qed.

Lemma decline_end_to_end_witness :
  let wb := VideoCall.receive (Relay.callUserFwd "offer" "A" "Ann")
              (VideoCall.fresh Scenario.bob) in
  let calling := fst (callUser "B" "offer" "Bob" Scenario.ann) in
  VideoCall.wire (VideoCall.trace (VideoCall.decline wb)) = [Relay.rejectCall "A"] ∧
  notices (snd (deliver Relay.callRejected calling)) = ["Call rejected by user"].
Proof.
  cbv zeta.
  assert (({[ "A" := "sA" ]} : gmap string string) !! "A" = Some "sA") as Hm
    by reflexivity.
  destruct (decline_end_to_end ({[ "A" := "sA" ]} : gmap string string)
    (VideoCall.receive (Relay.callUserFwd "offer" "A" "Ann") (VideoCall.fresh Scenario.bob))
    (fst (callUser "B" "offer" "Bob" Scenario.ann)) Scenario.online
    {| Relay.id := "sA"; Relay.userId := Some "A" |}
    {| Relay.id := "sB"; Relay.userId := Some "B" |} "A"
    eq_refl eq_refl eq_refl Hm eq_refl) as (Hw & _ & _ & Hd & _).
  split; [exact Hw|]. exact (f_equal (λ r, notices (snd r)) Hd).
Defined.

(** X11: End Call, end to end.  With a socket and a recorded remote party
    that is registered, [endCall] sends one message; the server forwards
    it as [callEnded] to the party's socket only.  The party's store is
    then ended and HomePage there no longer renders VideoCall; nothing is
    sent back, neither by the listener nor by a later [endCall] of that
    store, and its answer timeout does nothing when it fires afterwards. *)
Theorem hangup_end_to_end (m : Relay.Registry) (a b : State)
    (ska : ClientSocket) (sockA sockB : Relay.Socket) (peer : string) :
  socket a = Some ska →
  from (caller a) = Some peer →
  truthy peer = true →
  m !! peer = Some (Relay.id sockB) → truthy (Relay.id sockB) = true →
  let sent := relay m sockA (snd (endCall a)) in
  let told := deliver_all (inbox (Relay.id sockB) sent) b in
  emitted (snd (endCall a)) = [Relay.endCall peer] ∧
  sent = [(Relay.To (Relay.id sockB), Relay.callEnded)] ∧
  deliver Relay.callEnded b = (told, []) ∧
  callEnded told = true ∧
  VideoCall.HomePage_shows_VideoCall told = false ∧
  relay m sockB (snd (endCall told)) = [] ∧
  answer_timeout told = (told, []).
Proof.
  intros Hsk Hf Ht Hm Hts. cbv zeta. unfold relay, endCall.
  rewrite Hsk, Hf. simpl. rewrite Ht. simpl. rewrite Hm, Hts. simpl.
  rewrite (bool_decide_true (Relay.id sockB = Relay.id sockB)) by done. simpl.
  by destruct (socket b).
Qed.

Lemma hangup_end_to_end_witness :
  let calling := fst (callUser "B" "offer" "Bob" Scenario.ann) in
  let ringing := on_callUser "A" "Ann" "offer" Scenario.bob in
  relay {[ "B" := "sB" ]} {| Relay.id := "sA"; Relay.userId := Some "A" |}
        (snd (endCall calling))
    = [(Relay.To "sB", Relay.callEnded)] ∧
  callEnded (fst (deliver Relay.callEnded ringing)) = true.
Proof.
  cbv zeta.
  assert (({[ "B" := "sB" ]} : gmap string string) !! "B" = Some "sB") as Hm
    by reflexivity.
  destruct (hangup_end_to_end ({[ "B" := "sB" ]} : gmap string string)
    (fst (callUser "B" "offer" "Bob" Scenario.ann))
    (on_callUser "A" "Ann" "offer" Scenario.bob) Scenario.online
    {| Relay.id := "sA"; Relay.userId := Some "A" |}
    {| Relay.id := "sB"; Relay.userId := Some "B" |} "B"
    eq_refl eq_refl eq_refl Hm eq_refl) as (_ & Hs & Hd & He & _).
  split; [exact Hs|]. rewrite Hd. exact He.
Defined.

End CallFlow.

(** * More of the media access *)

Section MediaMore.
Import VideoCall Scenario Display.

(** Every error is reported, and nothing but state and, at most, one timer
    is touched. *)
Lemma handleMediaError_reports (e : Error) (w : World) :
  is_Some (mediaError (view (handleMediaError e w))) ∧
  isLoadingMedia (view (handleMediaError e w)) = isLoadingMedia (view w) ∧
  callStatus (view (handleMediaError e w)) = callStatus (view w) ∧
  deviceErrors (view (handleMediaError e w)) = deviceErrors (view w) ∧
  retryAttempts (view (handleMediaError e w)) = retryAttempts (view w).
Proof.
  unfold handleMediaError.
  repeat match goal with
         | |- context [if ?c then _ else _] => destruct c
         end; simpl; eauto 10.
Qed.

(** X14: the two outcomes of [getMediaWithErrorHandling].  It always ends
    with the loading flag off.  When the browser hands over a stream, that
    stream is the local stream, the status is connected, no error is
    shown, no timer is armed, and the Answer button is enabled.  When the
    browser is unsupported or [getUserMedia] fails, the local stream is
    what it was, the status is failed, an error is shown, and the Answer
    button is disabled. *)
Theorem media_access_outcomes (b : Browser) (c : Constraints) (w : World) :
  let w' := getMediaWithErrorHandling b c w in
  isLoadingMedia (view w') = false ∧
  (∀ s, supported b = true →
        getUserMedia b (available_constraints b c) = inl s →
        localStream (view w') = Some s ∧ callStatus (view w') = Connected ∧
        mediaError (view w') = None ∧ timers w' = timers w ∧
        answer_disabled (view w') = false) ∧
  ((supported b = false ∨ ∃ e, getUserMedia b (available_constraints b c) = inr e) →
        localStream (view w') = localStream (view w) ∧
        callStatus (view w') = Failed ∧
        is_Some (mediaError (view w')) ∧
        answer_disabled (view w') = true).
Proof.
  assert (∀ e w0, callStatus (view w0) = Failed →
            localStream (view (handleMediaError e w0)) = localStream (view w0) ∧
            callStatus (view (handleMediaError e w0)) = Failed ∧
            is_Some (mediaError (view (handleMediaError e w0)))) as Hfail.
  { intros e w0 Hw0.
    destruct (handleMediaError_reports e w0) as (Hme & _ & Hcs & _).
    destruct (handleMediaError_frame e w0) as (_ & _ & Hls & _).
    by rewrite Hls, Hcs. }
  assert (∀ cs, is_Some (mediaError cs) → isLoadingMedia cs = false →
                answer_disabled cs = true) as Hdis.
  { intros cs Hme Hl. unfold answer_disabled. rewrite Hl.
    by rewrite bool_decide_true. }
  cbv zeta. unfold getMediaWithErrorHandling.
  destruct (supported b) eqn:Hsup; cbn [negb].
  - destruct (getUserMedia b _) as [s|e] eqn:Hgum.
    + split; [done|]. split.
      * intros s' _ [= <-]. done.
      * intros [?|[e ?]]; done.
    + match goal with
      | |- context [handleMediaError e ?w0] =>
          destruct (Hfail e w0 eq_refl) as (Hls & Hcs & Hme)
      end.
      split; [done|]. split; [intros s' _ ?; done|].
      intros _. split; [exact Hls|]. split; [exact Hcs|]. split; [exact Hme|].
      by apply Hdis.
  - match goal with
    | |- context [handleMediaError ?e ?w0] =>
        destruct (Hfail e w0 eq_refl) as (Hls & Hcs & Hme)
    end.
    split; [done|]. split; [intros s' ?; done|].
    intros _. split; [exact Hls|]. split; [exact Hcs|]. split; [exact Hme|].
    by apply Hdis.
Qed.

Lemma media_access_outcomes_witness :
  answer_disabled (view (mount working_browser (fresh bob))) = false ∧
  answer_disabled (view (mount demanding_browser (fresh bob))) = true.
Proof.
  split.
  - apply (media_access_outcomes working_browser default_constraints
             (set_view initial_view (fresh bob))) with (s := two_tracks);
      reflexivity.
  - apply (media_access_outcomes demanding_browser default_constraints
             (set_view initial_view (fresh bob))).
    right. eexists. reflexivity.
Defined.

(** X15: a device that is reported missing is never asked for.  In a
    supported browser each call makes exactly one [getUserMedia] request;
    it asks for video only if a camera is available and for audio only if
    a microphone is, with the caller's constraint otherwise unchanged, and
    a wanted device that is missing is flagged in [deviceErrors]. *)
Theorem only_available_devices_requested (b : Browser) (c : Constraints) (w : World) :
  supported b = true →
  let w' := getMediaWithErrorHandling b c w in
  ∃ c', trace w' = trace w ++ [GetUserMedia c'] ∧
        c_video c' = (if cameraAvailable b then c_video c else Off) ∧
        c_audio c' = (if microphoneAvailable b then c_audio c else Off) ∧
        (cameraAvailable b = false → wanted (c_video c) = true →
           camera (deviceErrors (view w')) = true) ∧
        (microphoneAvailable b = false → wanted (c_audio c) = true →
           microphone (deviceErrors (view w')) = true).
Proof.
  intros Hsup. cbv zeta. exists (available_constraints b c).
  split; [by apply getMedia_trace|].
  unfold getMediaWithErrorHandling. rewrite Hsup. cbn [negb].
  split; [|split].
  - unfold available_constraints. simpl.
    by destruct (cameraAvailable b), (c_video c).
  - unfold available_constraints. simpl.
    by destruct (microphoneAvailable b), (c_audio c).
  - destruct (getUserMedia b _) as [s|e].
    + simpl. split; intros -> ->; done.
    + match goal with
      | |- context [handleMediaError e ?w0] =>
          destruct (handleMediaError_reports e w0) as (_ & _ & _ & Hde & _)
      end.
      simpl. rewrite Hde. simpl. split; intros -> ->; done.
Qed.

Lemma only_available_devices_requested_witness :
  let b := {| supported := true; cameraAvailable := false; microphoneAvailable := true;
              getUserMedia := λ _, inl [{| kind := audio; live := true |}] |} in
  ∃ c', trace (mount b (fresh bob)) = [GetUserMedia c'] ∧ c_video c' = Off ∧ c_audio c' = On.
Proof.
  cbv zeta.
  destruct (only_available_devices_requested
    {| supported := true; cameraAvailable := false; microphoneAvailable := true;
       getUserMedia := λ _, inl [{| kind := audio; live := true |}] |}
    default_constraints (set_view initial_view (fresh bob)) eq_refl)
    as (c' & Ht & Hv & Ha & _).
  exists c'. split; [exact Ht|]. split; [exact Hv|exact Ha].
Defined.

(** X16: in a browser without [getUserMedia] no device is asked for and no
    timer is armed.  The error thrown is a plain [Error], whose name is
    "Error", so the [switch] falls to its default: the message shown is the
    generic one and it is marked retryable; the case written for
    "BROWSER_NOT_SUPPORTED" is not the one taken. *)
Theorem unsupported_browser_is_generic_error (b : Browser) (c : Constraints) (w : World) :
  supported b = false →
  let w' := getMediaWithErrorHandling b c w in
  trace w' = trace w ∧ timers w' = timers w ∧ store w' = store w ∧
  localStream (view w') = localStream (view w) ∧
  callStatus (view w') = Failed ∧
  permissionDenied (view w') = false ∧
  mediaError (view w')
    = Some {| message := "Media access error: BROWSER_NOT_SUPPORTED. Please check your device permissions and try again.";
              canRetry := true |}.
Proof. intros Hsup. cbv zeta. unfold getMediaWithErrorHandling. by rewrite Hsup. Qed.

Lemma unsupported_browser_is_generic_error_witness :
  let b := {| supported := false; cameraAvailable := true; microphoneAvailable := true;
              getUserMedia := λ _, inl two_tracks |} in
  trace (mount b (fresh bob)) = [] ∧
  canRetry <$> mediaError (view (mount b (fresh bob))) = Some true.
Proof.
  cbv zeta.
  destruct (unsupported_browser_is_generic_error
    {| supported := false; cameraAvailable := true; microphoneAvailable := true;
       getUserMedia := λ _, inl two_tracks |}
    default_constraints (set_view initial_view (fresh bob)) eq_refl)
    as (Ht & _ & _ & _ & _ & _ & Hme).
  split; [exact Ht|]. exact (f_equal (fmap canRetry) Hme).
Defined.

(** X17: only a constraint error can start an automatic retry.  For every
    other error [handleMediaError] arms no timer; and for every error
    whatsoever it reports an error, leaves the store, the trace and the
    local stream alone, and sets [permissionDenied] only for a permission
    error. *)
Theorem no_retry_unless_constraint_error (e : Error) (w : World) :
  let w' := handleMediaError e w in
  is_Some (mediaError (view w')) ∧
  store w' = store w ∧ trace w' = trace w ∧
  localStream (view w') = localStream (view w) ∧
  (constraint_error e = false → timers w' = timers w) ∧
  (permission_error e = false →
     permissionDenied (view w') = permissionDenied (view w)).
Proof.
  cbv zeta.
  destruct (handleMediaError_reports e w) as (Hme & _).
  destruct (handleMediaError_frame e w) as (Hst & Htr & Hls & _).
  split; [done|]. split; [done|]. split; [done|]. split; [done|].
  unfold handleMediaError, constraint_error, permission_error. split.
  - intros ->.
    repeat match goal with
           | |- context [if ?c then _ else _] => destruct c
           end; done.
  - intros ->.
    repeat match goal with
           | |- context [if ?c then _ else _] => destruct c
           end; done.
Qed.

Lemma no_retry_unless_constraint_error_witness :
  let busy := {| err_name := "NotReadableError"; err_message := "in use" |} in
  timers (handleMediaError busy (fresh bob)) = [] ∧
  permissionDenied (view (handleMediaError busy (fresh bob))) = false.
Proof.
  cbv zeta.
  destruct (no_retry_unless_constraint_error
    {| err_name := "NotReadableError"; err_message := "in use" |} (fresh bob))
    as (_ & _ & _ & _ & Ht & Hp).
  split; [exact (Ht eq_refl)|exact (Hp eq_refl)].
Defined.

End MediaMore.

(** * More of the call in the tab *)

Section TabMore.
Import VideoCall Scenario Display.

(** X18: the callee's tab answers by itself.  With a socket, a local
    stream and no media error, while an invite is ringing, the
    peer-connection effect creates a connection, applies the offer and, when
    the answer can be created, sends [answerCall] with it to the caller
    and marks the call accepted, without any click.  When the chain fails,
    nothing is sent, the call stays unaccepted and a connection error is
    shown.  Without a socket, without a local stream, or with a media error,
    the effect does nothing at all. *)
Theorem pc_effect_answers_by_itself (w : World) (sk : Store.ClientSocket) (s : Stream)
    (signal localDescription f : string) :
  Store.socket (store w) = Some sk →
  localStream (view w) = Some s →
  mediaError (view w) = None →
  Store.receivingCall (store w) = true →
  Store.callAccepted (store w) = false →
  Store.callSignal (store w) = Some signal →
  Store.from (Store.caller (store w)) = Some f →
  truthy f = true →
  let answered := pc_effect (Some localDescription) w in
  let failed := pc_effect None w in
  trace answered = trace w ++ [PcNew; PcSetRemoteDescription signal; PcCreateAnswer;
                               Wire (Relay.answerCall f localDescription)] ∧
  Store.callAccepted (store answered) = true ∧
  peerConnection (view answered)
    = Some {| closed := false; remoteDescription := Some signal |} ∧
  trace failed = trace w ++ [PcNew; PcSetRemoteDescription signal] ∧
  store failed = store w ∧
  connectionError (view failed)
    = Some "Failed to establish connection. Please try again." ∧
  (∀ answer w0,
     Store.socket (store w0) = None ∨ localStream (view w0) = None
     ∨ is_Some (mediaError (view w0)) →
     pc_effect answer w0 = w0).
Proof.
  intros Hsk Hls Hme Hrc Hacc Hsig Hf Ht. cbv zeta.
  split; [|split; [|split; [|split; [|split; [|split]]]]].
  1-6: unfold pc_effect, store_action, Store.answerCall;
       rewrite Hsk, Hls, Hme, Hsig, Hrc, Hacc; cbn;
       rewrite ?Hsk, ?Hf; cbn; rewrite ?Ht; cbn;
       rewrite <- ?app_assoc; try done.
  intros answer w0 H. unfold pc_effect.
    destruct (Store.socket (store w0)), (localStream (view w0)),
      (mediaError (view w0)); try done.
    destruct H as [?|[?|[? ?]]]; done.
Qed.

Lemma pc_effect_answers_by_itself_witness :
  let w := mount working_browser
             (receive (Relay.callUserFwd "offer" "A" "Ann") (fresh bob)) in
  wire (trace (pc_effect (Some "answer") w)) = [Relay.answerCall "A" "answer"] ∧
  Store.callAccepted (store (pc_effect (Some "answer") w)) = true.
Proof.
  cbv zeta.
  destruct (pc_effect_answers_by_itself
    (mount working_browser (receive (Relay.callUserFwd "offer" "A" "Ann") (fresh bob)))
    online two_tracks "offer" "answer" "A"
    eq_refl eq_refl eq_refl eq_refl eq_refl eq_refl eq_refl eq_refl)
    as (Ht & Hacc & _).
  split; [|exact Hacc].
  rewrite Ht. reflexivity.
Defined.

(** X19: a candidate travels from one peer connection to the other.  A
    candidate found in a tab with a socket and a recorded remote party is
    sent once, addressed to that party; the relay forwards it to the
    party's socket; and there, with socket and peer connection present, it
    is handed to [addIceCandidate].  The end-of-gathering event (no
    candidate) sends nothing. *)
Theorem candidate_end_to_end (m : Relay.Registry) (wa wb : World)
    (ska skb : Store.ClientSocket) (sockA : Relay.Socket) (pc : PeerConnection)
    (peer sidB candidate : string) :
  Store.socket (store wa) = Some ska →
  Store.from (Store.caller (store wa)) = Some peer →
  truthy peer = true →
  m !! peer = Some sidB → truthy sidB = true →
  Store.socket (store wb) = Some skb →
  peerConnection (view wb) = Some pc →
  trace (onicecandidate (Some candidate) wa)
    = trace wa ++ [Wire (Relay.iceCandidate peer candidate)] ∧
  Relay.on_message m sockA (Relay.iceCandidate peer candidate)
    = [(Relay.To sidB, Relay.iceCandidateFwd candidate)] ∧
  trace (receive (Relay.iceCandidateFwd candidate) wb)
    = trace wb ++ [PcAddIceCandidate candidate] ∧
  onicecandidate None wa = wa.
Proof.
  intros Hska Hp Htp Hm Hts Hskb Hpc.
  unfold onicecandidate, store_action, Store.sendIceCandidate, receive,
    handleIceCandidate.
  rewrite Hska, Hp. cbn. rewrite Htp. cbn. rewrite Hm, Hts, Hskb, Hpc. done.
Qed.

Lemma candidate_end_to_end_witness :
  let wb := pc_effect (Some "answer")
              (mount working_browser
                 (receive (Relay.callUserFwd "offer" "A" "Ann") (fresh bob))) in
  wire (trace (onicecandidate (Some "c1") wb)) = wire (trace wb) ++ [Relay.iceCandidate "A" "c1"].
Proof.
  cbv zeta.
  assert (({[ "A" := "sA" ]} : gmap string string) !! "A" = Some "sA") as Hm
    by reflexivity.
  destruct (candidate_end_to_end ({[ "A" := "sA" ]} : gmap string string)
    (pc_effect (Some "answer")
       (mount working_browser (receive (Relay.callUserFwd "offer" "A" "Ann") (fresh bob))))
    (pc_effect (Some "answer")
       (mount working_browser (receive (Relay.callUserFwd "offer" "A" "Ann") (fresh bob))))
    online online {| Relay.id := "sB"; Relay.userId := Some "B" |}
    {| closed := false; remoteDescription := Some "offer" |} "A" "sA" "c1"
    eq_refl eq_refl eq_refl Hm eq_refl eq_refl eq_refl) as (Ht & _).
  rewrite Ht. reflexivity.
Defined.





(** X22: what End Call leaves behind.  After [handleEndCall] HomePage no
    longer renders VideoCall, every error and status of the component is
    reset, and exactly one [endCall] has been sent to the recorded remote
    party if there was a socket and such a party, and nothing otherwise.  A
    second [handleEndCall] sends nothing more. *)
Theorem end_call_resets_and_notifies_once (w : World) :
  let w' := handleEndCall w in
  HomePage_shows_VideoCall (store w') = false ∧
  rendered (store w') = NoScreen ∧
  mediaError (view w') = None ∧ connectionError (view w') = None ∧
  socketError (view w') = None ∧ permissionDenied (view w') = false ∧
  retryAttempts (view w') = 0 ∧ isReconnecting (view w') = false ∧
  callStatus (view w') = Idle ∧
  wire (trace w')
    = wire (trace w)
      ++ match Store.socket (store w) with
         | Some _ =>
             if truthy_opt (Store.from (Store.caller (store w)))
             then [Relay.endCall (key_of (Store.from (Store.caller (store w))))]
             else []
         | None => []
         end ∧
  wire (trace (handleEndCall w')) = wire (trace w').
Proof.
  assert (∀ w0, wire (trace (close_pc (stop_local_tracks w0))) = wire (trace w0)) as Hquiet.
  { intros w0. unfold close_pc, stop_local_tracks.
    destruct (localStream (view w0)) as [s|]; cbn;
      destruct (peerConnection (view w0)); cbn;
      rewrite ?wire_app, ?wire_track_stops; cbn; by rewrite ?app_nil_r. }
  assert (∀ w0 r1 r2, trace (clear_ref r1 (clear_ref r2 w0)) = trace w0) as Hclear.
  { intros w0 [[|?]|] [[|?]|]; done. }
  assert (∀ w0 r1 r2, store (clear_ref r1 (clear_ref r2 w0)) = store w0) as Hclear'.
  { intros w0 [[|?]|] [[|?]|]; done. }
  assert (∀ w0, store (close_pc (stop_local_tracks w0)) = store w0) as Hst.
  { intros w0. unfold close_pc, stop_local_tracks.
    destruct (localStream (view w0)); cbn; by destruct (peerConnection (view w0)). }
  assert (∀ w0, wire (trace (handleEndCall w0))
                = wire (trace w0)
                  ++ match Store.socket (store w0) with
                     | Some _ =>
                         if truthy_opt (Store.from (Store.caller (store w0)))
                         then [Relay.endCall (key_of (Store.from (Store.caller (store w0))))]
                         else []
                     | None => []
                     end) as Hwire.
  { intros w0. unfold handleEndCall, store_action, Store.endCall. cbn.
    rewrite Hclear', Hst.
    destruct (Store.socket (store w0)); cbn;
      [destruct (truthy_opt _); cbn|];
      rewrite ?wire_app, Hclear, Hquiet; cbn; by rewrite ?app_nil_r. }
  assert (∀ effs w0, store (perform effs w0) = store w0) as Hperform.
  { induction effs as [|[msg|text|cb ms] effs IH]; intros w0; simpl;
      [done|by rewrite IH..]. }
  assert (∀ w0, store (handleEndCall w0) = Store.set_ended (store w0)) as Hended.
  { intros w0. unfold handleEndCall, store_action. rewrite Hperform. cbn.
    by rewrite Hclear', Hst. }
  cbv zeta.
  split; [|split; [|split; [|split; [|split; [|split; [|split; [|split; [|split; [|split]]]]]]]]].
  1-2: unfold rendered, HomePage_shows_VideoCall; by rewrite Hended.
  1-7: unfold handleEndCall; by rewrite store_action_view.
  - apply Hwire.
  - rewrite (Hwire (handleEndCall w)), Hended. cbn.
    destruct (Store.socket (store w)); by rewrite ?app_nil_r.
Qed.

(** X23: the caller's timeout in the tab.  [callUser] arms one timer of
    15000 ms.  When the callee's answer arrives before it fires, its
    firing changes nothing: the store, the component and the trace are
    as they were after the answer, and the timer is gone from the table. *)
Theorem answer_timer_is_harmless_after_accept (b : Browser) (w : World)
    (sk : Store.ClientSocket) (u : Store.User) (callee offer name answer : string) :
  handles_given_out w = true →
  Store.socket (store w) = Some sk →
  Store.authUser (store w) = Some u →
  let w1 := store_action (Store.callUser callee offer name) w in
  let w2 := receive (Relay.callAccepted answer) w1 in
  let w3 := fire b (next_handle w) w2 in
  timers w1 = timers w ++ [{| handle := next_handle w; callback := AnswerTimeout;
                              delay := 15000; repeats := false |}] ∧
  Store.callAccepted (store w2) = true ∧
  store w3 = store w2 ∧ view w3 = view w2 ∧ trace w3 = trace w2 ∧
  timers w3 = timers w.
Proof.
  destruct w as [st cs ti nh tr]. cbn [store timers next_handle].
  intros Hfresh Hsk Hu. unfold handles_given_out in Hfresh. cbn in Hfresh.
  unfold store_action, Store.callUser. cbn. rewrite Hsk, Hu. cbn.
  unfold fire. cbn.
  erewrite find_fresh_handle; [|exact Hfresh|reflexivity]. cbn.
  unfold clearTimer. cbn.
  erewrite filter_fresh_handle; [|exact Hfresh|reflexivity].
  done.
Qed.

Lemma answer_timer_is_harmless_after_accept_witness :
  let w1 := store_action (Store.callUser "B" "offer" "Bob") (fresh ann) in
  let w2 := receive (Relay.callAccepted "answer") w1 in
  map callback (timers w1) = [AnswerTimeout] ∧
  store (fire working_browser 1 w2) = store w2 ∧
  timers (fire working_browser 1 w2) = [].
Proof.
  cbv zeta.
  destruct (answer_timer_is_harmless_after_accept working_browser (fresh ann)
              online ann_user "B" "offer" "Bob" "answer" eq_refl eq_refl eq_refl)
    as (Ht1 & _ & Hst & _ & _ & Ht3).
  split; [exact (f_equal (map callback) Ht1)|]. split; [exact Hst|exact Ht3].
Defined.

(** X7: the statistics interval.  The network-quality effect arms its
    interval (every 1000 ms) only when there is a peer connection and the
    call is accepted, and does nothing otherwise.  The interval stays in
    the table when it fires; the effect's cleanup removes exactly this
    interval, and so does End Call. *)
Theorem stats_interval_is_armed_and_cleared (b : Browser) (w : World) :
  handles_given_out w = true →
  (0 < next_handle w)%nat →
  let tick := {| handle := next_handle w; callback := StatsTick;
                 delay := 1000; repeats := true |} in
  let armed := stats_effect w in
  (is_Some (peerConnection (view w)) → Store.callAccepted (store w) = true →
     timers armed = timers w ++ [tick] ∧
     timers (fire b (next_handle w) armed) = timers armed ∧
     timers (stats_cleanup armed) = timers w ∧
     (reconnectTimeoutRef (view w) = None → timers (handleEndCall armed) = timers w)) ∧
  (peerConnection (view w) = None ∨ Store.callAccepted (store w) = false →
     armed = w).
Proof.
  destruct w as [st cs ti nh tr].
  destruct cs as [ls pc me ce se lm pd ra cst rc de r1 r2].
  cbn [store view timers next_handle peerConnection reconnectTimeoutRef].
  intros Hfresh Hpos. unfold handles_given_out in Hfresh. cbn in Hfresh.
  destruct nh as [|nh]; [lia|]. cbv zeta. unfold stats_effect. cbn. split.
  - intros [p ->] ->. cbn. split; [done|]. split; [|split].
    + unfold fire. cbn.
      erewrite find_fresh_handle; [|exact Hfresh|reflexivity]. done.
    + unfold stats_cleanup, clearTimer. cbn.
      by erewrite filter_fresh_handle; [|exact Hfresh|reflexivity].
    + intros ->. unfold handleEndCall. cbn.
      assert (∀ effs w0, timers w0 = ti → (∀ cb ms, Store.SetTimeout cb ms ∉ effs) →
                timers (perform effs w0) = ti) as Hperform.
      { induction effs as [|[msg|text|cb ms] effs IH]; intros w0 Hw0 Hno; simpl;
          [done|apply IH; [done|intros cb' ms' H; apply (Hno cb' ms'); by right]..|].
        exfalso. apply (Hno cb ms). by left. }
      unfold store_action.
      destruct ls as [s|]; cbn; (apply Hperform;
        [unfold clearTimer; cbn;
         by erewrite filter_fresh_handle; [|exact Hfresh|reflexivity]
        |intros cb ms; unfold Store.endCall; cbn;
         destruct (Store.socket st); [destruct (truthy_opt _)|]; cbn;
         intros H; repeat (apply elem_of_cons in H as [H|H]; [discriminate|]);
         by apply elem_of_nil in H]).
  - intros [-> | ->]; [done|]. by destruct pc.
Qed.

Lemma stats_interval_is_armed_and_cleared_witness :
  let w := pc_effect (Some "answer")
             (mount working_browser
                (receive (Relay.callUserFwd "offer" "A" "Ann") (fresh bob))) in
  map callback (timers (stats_effect w)) = [StatsTick] ∧
  timers (stats_cleanup (stats_effect w)) = [] ∧
  timers (handleEndCall (stats_effect w)) = [].
Proof.
  cbv zeta.
  destruct (stats_interval_is_armed_and_cleared working_browser
    (pc_effect (Some "answer")
       (mount working_browser (receive (Relay.callUserFwd "offer" "A" "Ann") (fresh bob))))
    eq_refl (le_n 1)) as (Harmed & _).
  destruct (Harmed (mk_is_Some _ _ eq_refl) eq_refl) as (Ht & _ & Hclean & Hend).
  split; [exact (f_equal (map callback) Ht)|]. split; [exact Hclean|exact (Hend eq_refl)].
Defined.

End TabMore.

(** * Starting a call *)

Section ChatHeaderProps.
Import VideoCall Scenario ChatHeader.

Lemma stopped_app (l1 l2 : list Cmd) : stopped (l1 ++ l2) = (stopped l1 + stopped l2)%nat.
Proof. induction l1 as [|c l1 IH]; [done|]. destruct c; simpl; by rewrite IH. Qed.

Lemma stopped_stops (s : Stream) : stopped (stops s) = length s.
Proof. induction s as [|t s IH]; [done|]. simpl. by rewrite IH. Qed.

Lemma wire_stops (s : Stream) : wire (stops s) = [].
Proof. by induction s. Qed.

(** X24: the call button does nothing to devices or network unless a user
    is selected and listed as online.  With no user selected nothing
    changes at all; with the selected user missing from the list of online
    users only the message "User is currently offline. Cannot start video
    call." is set. *)
Theorem call_button_needs_online_user (env : Env) (selectedUser : option Store.User)
    (onlineUsers : list string) (cs : State) (w : World) :
  (∀ user, selectedUser = Some user → Store._id user ∉ onlineUsers) →
  snd (handleCallUser env selectedUser onlineUsers cs w) = w ∧
  isCheckingPermissions (fst (handleCallUser env selectedUser onlineUsers cs w))
    = isCheckingPermissions cs ∧
  permissionError (fst (handleCallUser env selectedUser onlineUsers cs w))
    = match selectedUser with
      | Some _ => Some "User is currently offline. Cannot start video call."
      | None => permissionError cs
      end.
Proof.
  intros Hoff. unfold handleCallUser.
  destruct selectedUser as [user|]; [|done].
  by rewrite bool_decide_false by by apply Hoff.
Qed.

Lemma call_button_needs_online_user_witness :
  let env := {| supported := true; check_media := inl two_tracks;
                call_media := inl two_tracks; offer := Some "offer" |} in
  let cs := {| isCheckingPermissions := false; permissionError := None |} in
  snd (handleCallUser env (Some bob_user) ["A"; "C"] cs (fresh ann)) = fresh ann.
Proof.
  apply (call_button_needs_online_user
           {| supported := true; check_media := inl two_tracks;
              call_media := inl two_tracks; offer := Some "offer" |}
           (Some bob_user) ["A"; "C"]
           {| isCheckingPermissions := false; permissionError := None |} (fresh ann)).
  intros user [= <-]. vm_compute. intros H.
  repeat (apply elem_of_cons in H as [H|H]; [discriminate|]).
  by apply elem_of_nil in H.
Defined.

(** X25: a call that starts.  With the selected user online, the
    permission check passing, the second stream and the offer obtained, and
    the store signed in with a socket: the devices are asked for twice,
    every track of both streams is stopped again, one invite goes out
    carrying the offer, the selected user's id and the caller's id and
    name, the 15 s answer timeout is armed, and the store records the
    selected user as the remote party.  The peer connection created for
    the offer is never closed. *)
Theorem call_button_starts_call (env : Env) (user me : Store.User)
    (onlineUsers : list string) (cs : State) (w : World)
    (sk : Store.ClientSocket) (s1 s2 : Stream) (sdp : string) :
  Store._id user ∈ onlineUsers →
  supported env = true →
  check_media env = inl s1 →
  call_media env = inl s2 →
  offer env = Some sdp →
  Store.socket (store w) = Some sk →
  Store.authUser (store w) = Some me →
  let cs' := fst (handleCallUser env (Some user) onlineUsers cs w) in
  let w' := snd (handleCallUser env (Some user) onlineUsers cs w) in
  let invite := Relay.callUser (Store._id user) sdp (Store._id me) (Store.fullName me) in
  trace w' = trace w ++ GetUserMedia default_constraints :: stops s1
                     ++ [PcNew; GetUserMedia default_constraints; Wire invite]
                     ++ stops s2 ∧
  stopped (trace w') = (stopped (trace w) + length s1 + length s2)%nat ∧
  wire (trace w') = wire (trace w) ++ [invite] ∧
  (PcClose ∉ drop (length (trace w)) (trace w')) ∧
  timers w' = timers w ++ [{| handle := next_handle w; callback := AnswerTimeout;
                              delay := 15000; repeats := false |}] ∧
  Store.caller (store w')
    = {| Store.from := Some (Store._id user); Store.name := Some (Store.fullName user) |} ∧
  view w' = view w ∧
  permissionError cs' = None.
Proof.
  intros Hon Hsup Hcheck Hcall Hoffer Hsk Hme. cbv zeta.
  unfold handleCallUser, checkMediaPermissions.
  rewrite bool_decide_true by done. rewrite Hsup, Hcheck. cbn.
  rewrite Hcall, Hoffer. unfold store_action, Store.callUser. cbn.
  rewrite Hsk, Hme. cbn.
  assert (∀ A (l1 l2 l3 : list A), (l1 ++ l2) ++ l3 = l1 ++ l2 ++ l3) as Hassoc
    by (intros; by rewrite <- app_assoc).
  split; [|split; [|split; [|split]]].
  - repeat (rewrite <- ?app_assoc; cbn). done.
  - rewrite !stopped_app. cbn. rewrite ?stopped_app, !stopped_stops. cbn. lia.
  - rewrite !wire_app. cbn. rewrite ?wire_app, !wire_stops. cbn.
    by rewrite ?app_nil_r.
  - repeat (rewrite <- ?app_assoc; cbn).
    rewrite drop_app_length. intros H.
    apply elem_of_cons in H as [H|H]; [discriminate|].
    apply elem_of_app in H as [H|H].
    + apply list_elem_of_fmap in H as (t & Ht & _). discriminate.
    + repeat (apply elem_of_cons in H as [H|H]; [discriminate|]).
      apply list_elem_of_fmap in H as (t & Ht & _). discriminate.
  - done.
Qed.

Lemma call_button_starts_call_witness :
  let env := {| supported := true; check_media := inl two_tracks;
                call_media := inl two_tracks; offer := Some "offer" |} in
  let cs := {| isCheckingPermissions := false; permissionError := None |} in
  let w' := snd (handleCallUser env (Some bob_user) ["A"; "B"] cs (fresh ann)) in
  wire (trace w') = [Relay.callUser "B" "offer" "A" "Ann"] ∧
  stopped (trace w') = 4.
Proof.
  cbv zeta.
  assert ("B" ∈ ["A"; "B"]) as Hon by (apply list_elem_of_further, list_elem_of_here).
  destruct (call_button_starts_call
    {| supported := true; check_media := inl two_tracks;
       call_media := inl two_tracks; offer := Some "offer" |}
    bob_user ann_user ["A"; "B"]
    {| isCheckingPermissions := false; permissionError := None |} (fresh ann)
    online two_tracks two_tracks "offer" Hon eq_refl eq_refl eq_refl eq_refl
    eq_refl eq_refl) as (_ & Hstop & Hwire & _).
  split; [exact Hwire|exact Hstop].
Defined.

(** X26: a call that does not start.  When the browser has no
    [getUserMedia], the permission check fails, the second [getUserMedia]
    fails or no offer can be made, nothing is sent, no timer is armed, the
    store is untouched and an error message is set.  In the last case, the
    stream obtained for the offer is left as it is: its tracks are not
    stopped, only those of the permission check are. *)
Theorem call_button_failure (env : Env) (user : Store.User)
    (onlineUsers : list string) (cs : State) (w : World) :
  Store._id user ∈ onlineUsers →
  supported env = false ∨ (∃ e, check_media env = inr e)
  ∨ (∃ e, call_media env = inr e) ∨ offer env = None →
  let cs' := fst (handleCallUser env (Some user) onlineUsers cs w) in
  let w' := snd (handleCallUser env (Some user) onlineUsers cs w) in
  wire (trace w') = wire (trace w) ∧
  timers w' = timers w ∧ store w' = store w ∧ view w' = view w ∧
  is_Some (permissionError cs') ∧
  (∀ s1 s2, supported env = true → check_media env = inl s1 →
            call_media env = inl s2 →
            trace w' = trace w ++ GetUserMedia default_constraints :: stops s1
                               ++ [PcNew; GetUserMedia default_constraints] ∧
            stopped (trace w') = (stopped (trace w) + length s1)%nat).
Proof.
  intros Hon Hfail. cbv zeta.
  unfold handleCallUser, checkMediaPermissions.
  rewrite bool_decide_true by done.
  destruct (supported env) eqn:Hsup; cbn.
  - destruct (check_media env) as [s1|e1] eqn:Hcheck; cbn.
    + destruct (call_media env) as [s2|e2] eqn:Hcall; cbn.
      * destruct (offer env) as [sdp|] eqn:Hoffer; cbn.
        -- destruct Hfail as [?|[[? ?]|[[? ?]|?]]]; done.
        -- repeat (progress (rewrite ?wire_app, ?wire_stops, ?app_nil_r; cbn)).
           repeat split; eauto.
           ++ simplify_eq. by rewrite <- app_assoc.
           ++ simplify_eq. rewrite !stopped_app. cbn.
              rewrite ?stopped_app, stopped_stops. cbn. lia.
      * repeat (progress (rewrite ?wire_app, ?wire_stops, ?app_nil_r; cbn)).
        repeat split; eauto; intros; done.
    + repeat (progress (rewrite ?wire_app, ?wire_stops, ?app_nil_r; cbn)).
      repeat split; eauto; intros; done.
  - repeat split; eauto; intros; done.
Qed.

Lemma call_button_failure_witness :
  let env := {| supported := true; check_media := inl two_tracks;
                call_media := inl two_tracks; offer := None |} in
  let cs := {| isCheckingPermissions := false; permissionError := None |} in
  let w' := snd (handleCallUser env (Some bob_user) ["A"; "B"] cs (fresh ann)) in
  wire (trace w') = [] ∧ stopped (trace w') = 2.
Proof.
  cbv zeta.
  assert ("B" ∈ ["A"; "B"]) as Hon by (apply list_elem_of_further, list_elem_of_here).
  destruct (call_button_failure
    {| supported := true; check_media := inl two_tracks;
       call_media := inl two_tracks; offer := None |}
    bob_user ["A"; "B"]
    {| isCheckingPermissions := false; permissionError := None |} (fresh ann)
    Hon (or_intror (or_intror (or_intror eq_refl)))) as (Hwire & _ & _ & _ & _ & Hleak).
  split; [exact Hwire|].
  exact (proj2 (Hleak two_tracks two_tracks eq_refl eq_refl eq_refl)).
Defined.

End ChatHeaderProps.

(** * What the call screen shows *)

Section DisplayProps.
Import VideoCall Scenario Display.

(** X27: the "Calling ..." screen is never on the page.  Whatever the
    store holds, what HomePage shows is the incoming-call screen exactly
    when a call is being received and is not accepted, the active-call
    screen exactly when a call is accepted and not ended, and never the
    calling screen: right after [callUser] the component would choose it,
    but HomePage does not render the component for an unanswered outgoing
    call. *)
Theorem calling_screen_is_never_shown (st : Store.State) :
  rendered st ≠ CallingScreen ∧
  (rendered st = IncomingScreen
   ↔ Store.receivingCall st = true ∧ Store.callAccepted st = false) ∧
  (rendered st = ActiveScreen
   ↔ Store.callAccepted st = true ∧ Store.callEnded st = false) ∧
  (∀ sk u userToCall signalData name,
     Store.socket st = Some sk → Store.authUser st = Some u →
     Store.callAccepted st = false → Store.callEnded st = false →
     truthy userToCall = true →
     content (fst (Store.callUser userToCall signalData name st)) = CallingScreen ∧
     rendered (fst (Store.callUser userToCall signalData name st)) = NoScreen).
Proof.
  unfold rendered, content, HomePage_shows_VideoCall.
  split; [|split; [|split]].
  - destruct (Store.receivingCall st), (Store.callAccepted st), (Store.callEnded st);
      simpl; try done; by destruct (truthy_opt _).
  - destruct (Store.receivingCall st), (Store.callAccepted st), (Store.callEnded st);
      simpl; split; try done; try (by intros [? ?]); by destruct (truthy_opt _).
  - destruct (Store.receivingCall st), (Store.callAccepted st), (Store.callEnded st);
      simpl; split; try done; try (by intros [? ?]); by destruct (truthy_opt _).
  - intros sk u userToCall signalData name Hsk Hu Hacc Hend Ht.
    unfold Store.callUser. rewrite Hsk, Hu. simpl. by rewrite Hacc, Hend, Ht.
Qed.

Lemma calling_screen_is_never_shown_witness :
  content (fst (Store.callUser "B" "offer" "Bob" ann)) = CallingScreen ∧
  rendered (fst (Store.callUser "B" "offer" "Bob" ann)) = NoScreen.
Proof.
  destruct (calling_screen_is_never_shown ann) as (_ & _ & _ & H).
  exact (H online ann_user "B" "offer" "Bob" eq_refl eq_refl eq_refl eq_refl eq_refl).
Defined.

Lemma length_append (s1 s2 : string) :
  String.length (s1 +:+ s2) = (String.length s1 + String.length s2)%nat.
Proof.
  induction s1 as [|c s1 IH]; [done|].
  change (String c s1 +:+ s2) with (String c (s1 +:+ s2)).
  cbn [String.length]. by rewrite IH.
Qed.

Lemma append_same_suffix_length (p1 p2 s1 s2 : string) :
  p1 +:+ s1 = p2 +:+ s2 → String.length s1 = String.length s2 →
  p1 = p2 ∧ s1 = s2.
Proof.
  revert p2. induction p1 as [|c p1 IH]; intros [|c' p2] Heq Hlen.
  - done.
  - change (s1 = String c' (p2 +:+ s2)) in Heq.
    rewrite Heq in Hlen. cbn [String.length] in Hlen.
    rewrite length_append in Hlen. lia.
  - change (String c (p1 +:+ s1) = s2) in Heq.
    rewrite <- Heq in Hlen. cbn [String.length] in Hlen.
    rewrite length_append in Hlen. lia.
  - change (String c (p1 +:+ s1) = String c' (p2 +:+ s2)) in Heq.
    injection Heq as -> Heq. destruct (IH p2 Heq Hlen) as [-> ->]. done.
Qed.

Lemma seconds_two_digits (r : nat) :
  (r < 60)%nat → String.length (padStart2 (pretty r)) = 2.
Proof.
  intros Hr. do 60 (destruct r as [|r]; [reflexivity|]). lia.
Qed.

Lemma seconds_distinct :
  NoDup ((λ r : nat, padStart2 (pretty r)) <$> seq 0 60).
Proof. refine (bool_decide_unpack _ _). vm_compute. exact I. Qed.

Lemma seconds_inj (r1 r2 : nat) :
  (r1 < 60)%nat → (r2 < 60)%nat →
  padStart2 (pretty r1) = padStart2 (pretty r2) → r1 = r2.
Proof.
  intros H1 H2 Heq.
  apply (NoDup_lookup _ r1 r2 (padStart2 (pretty r1)) seconds_distinct).
  - rewrite list_lookup_fmap, lookup_seq_lt by done. done.
  - rewrite list_lookup_fmap, lookup_seq_lt by done. simpl. by rewrite Heq.
Qed.

(** X28: the duration display.  The seconds of [formatDuration] always
    take exactly two characters, and two different durations are never
    displayed alike. *)
Theorem formatDuration_two_digits_and_injective :
  (∀ seconds, ∃ minutes ss,
     formatDuration seconds = minutes +:+ ":" +:+ ss ∧ String.length ss = 2) ∧
  (∀ a b, formatDuration a = formatDuration b → a = b).
Proof.
  split.
  - intros seconds. eexists _, _. split; [reflexivity|].
    apply seconds_two_digits, Nat.mod_upper_bound. done.
  - intros a b Heq. unfold formatDuration in Heq.
    pose proof (Nat.mod_upper_bound a 60 ltac:(done)) as Ha.
    pose proof (Nat.mod_upper_bound b 60 ltac:(done)) as Hb.
    apply append_same_suffix_length in Heq as [Hmin Hsec].
    + apply (inj pretty) in Hmin. injection Hsec as Hsec.
      apply seconds_inj in Hsec; [|done..].
      change (a mod 60 = b mod 60)%nat in Hsec.
      pose proof (Nat.div_mod_eq a 60). pose proof (Nat.div_mod_eq b 60). lia.
    + by rewrite !length_append, !seconds_two_digits.
Qed.

End DisplayProps.

(** * Network quality and the media buttons *)

Section StatsProps.
Import Stats.

Lemma lost_fold (stats : list Report) (t : Totals) :
  lost (fold_left add_report stats t) = (lost t + inbound_loss stats)%Z.
Proof.
  revert t. induction stats as [|r stats IH]; intros t; simpl; [lia|].
  rewrite IH. unfold add_report. destruct (r_type r); simpl; lia.
Qed.

Lemma inbound_loss_filter (stats : list Report) :
  inbound_loss (filter (λ r, r_type r = inbound_rtp) stats) = inbound_loss stats.
Proof.
  induction stats as [|r stats IH]; [done|].
  destruct (r_type r) eqn:Hr.
  - rewrite filter_cons_True by done. simpl. by rewrite Hr, IH.
  - rewrite filter_cons_False by congruence. simpl. by rewrite Hr, IH.
  - rewrite filter_cons_False by congruence. simpl. by rewrite Hr, IH.
Qed.

(** X29: the quality indicator follows the packets lost on the inbound
    streams and nothing else.  With a peer connection and statistics, the
    quality is "poor" above 100 lost packets summed over the inbound
    reports, "fair" above 10, "good" otherwise; reports of other kinds,
    byte counts and missing [packetsLost] fields have no influence; and
    when no report loses fewer packets, the quality does not get better.
    Without a peer connection, or when [getStats] fails, the quality shown
    stays what it was. *)
Theorem quality_follows_inbound_loss (pc : VideoCall.PeerConnection)
    (stats stats' : list Report) (q : Quality) :
  monitorNetworkQuality None (Some stats) q = q ∧
  monitorNetworkQuality (Some pc) None q = q ∧
  monitorNetworkQuality (Some pc) (Some stats) q = assess (inbound_loss stats) ∧
  monitorNetworkQuality (Some pc) (Some stats) q
    = monitorNetworkQuality (Some pc)
        (Some (filter (λ r, r_type r = inbound_rtp) stats)) q ∧
  (no_fewer_lost stats stats' →
     (badness (monitorNetworkQuality (Some pc) (Some stats) q)
      ≤ badness (monitorNetworkQuality (Some pc) (Some stats') q))%nat).
Proof.
  unfold monitorNetworkQuality, totals.
  split; [done|]. split; [done|]. split; [by rewrite lost_fold|]. split.
  - by rewrite !lost_fold, inbound_loss_filter.
  - intros Hmore. rewrite !lost_fold. simpl.
    assert (inbound_loss stats ≤ inbound_loss stats')%Z as Hle.
    { induction Hmore as [|r r' rs rs' [Hty Hl] _ IH]; simpl; [lia|].
      rewrite <- Hty. destruct (r_type r); lia. }
    unfold assess.
    repeat case_match; simpl; lia.
Qed.

Lemma quality_follows_inbound_loss_witness :
  let pc := {| VideoCall.closed := false; VideoCall.remoteDescription := None |} in
  let r n := {| r_type := inbound_rtp; bytesReceived := Some 1000%Z;
                packetsLost := Some n; bytesSent := None |} in
  (badness (monitorNetworkQuality (Some pc) (Some [r 5%Z]) unknown)
   ≤ badness (monitorNetworkQuality (Some pc) (Some [r 50%Z]) unknown))%nat.
Proof.
  cbv zeta.
  apply (quality_follows_inbound_loss
           {| VideoCall.closed := false; VideoCall.remoteDescription := None |}
           [{| r_type := inbound_rtp; bytesReceived := Some 1000%Z;
               packetsLost := Some 5%Z; bytesSent := None |}]
           [{| r_type := inbound_rtp; bytesReceived := Some 1000%Z;
               packetsLost := Some 50%Z; bytesSent := None |}] unknown).
  repeat constructor. simpl. lia.
Defined.

End StatsProps.

Section ControlsProps.
Import Controls.

Lemma flip_flip (k : VideoCall.TrackKind) (s : list Track) : flip k (flip k s) = s.
Proof.
  unfold flip. rewrite <- list_fmap_compose.
  rewrite <- (list_fmap_id s) at 2. apply list_fmap_ext.
  intros _ [kd en] _. simpl.
  destruct (VideoCall.kind_eqb kd k) eqn:Hk; simpl; [|by rewrite Hk].
  by rewrite Hk, negb_involutive.
Qed.

Lemma click_in_sync (c : State) (b : Click) : in_sync c → in_sync (click c b).
Proof.
  intros Hc. destruct b; unfold click, toggleMic, toggleCamera;
    destruct (localStream c) as [s|] eqn:Hs; try done;
    intros s' [= <-] t' Ht'; simpl;
    apply list_elem_of_fmap in Ht' as (t & -> & Ht);
    specialize (Hc s Hs t Ht);
    destruct (kind t) eqn:Hk; simpl; rewrite ?Hk; simpl; by rewrite ?Hc.
Qed.

(** X30: the mute and camera buttons.  Each button is its own inverse:
    two clicks restore tracks and flag.  Starting from flags that agree
    with the tracks (a track is enabled exactly when its device is not
    shown as muted or off), any sequence of clicks keeps them in
    agreement.  Without a local stream, a click changes nothing, not even
    the flag. *)
Theorem media_buttons_stay_in_sync (c : State) (clicks : list Click) :
  toggleMic (toggleMic c) = c ∧
  toggleCamera (toggleCamera c) = c ∧
  (localStream c = None → fold_left click clicks c = c) ∧
  (in_sync c → in_sync (fold_left click clicks c)).
Proof.
  split; [|split; [|split]].
  - destruct c as [[s|] m o]; unfold toggleMic; simpl; [|done].
    by rewrite flip_flip, negb_involutive.
  - destruct c as [[s|] m o]; unfold toggleCamera; simpl; [|done].
    by rewrite flip_flip, negb_involutive.
  - intros Hnone. induction clicks as [|b clicks IH]; [done|]. simpl.
    assert (click c b = c) as ->; [|done].
    destruct b; unfold click, toggleMic, toggleCamera; by rewrite Hnone.
  - revert c. induction clicks as [|b clicks IH]; intros c Hc; [done|].
    simpl. by apply IH, click_in_sync.
Qed.

Lemma media_buttons_stay_in_sync_witness :
  let c := {| localStream := Some [{| kind := VideoCall.video; enabled := true |};
                                   {| kind := VideoCall.audio; enabled := true |}];
              micMuted := false; cameraOff := false |} in
  in_sync (fold_left click [ClickMic; ClickCamera; ClickMic] c).
Proof.
  cbv zeta.
  apply (media_buttons_stay_in_sync
    {| localStream := Some [{| kind := VideoCall.video; enabled := true |};
                            {| kind := VideoCall.audio; enabled := true |}];
       micMuted := false; cameraOff := false |} [ClickMic; ClickCamera; ClickMic]).
  intros s [= <-] t Ht.
  repeat (apply elem_of_cons in Ht as [->|Ht]; [reflexivity|]).
  by apply elem_of_nil in Ht.
Defined.

End ControlsProps.

